(** * DiffViewer: completion tracking, one-shot anchor scroll, view style

    A shallow embedding of [src/components/common/DiffViewer.js].  The React
    component is modelled as a state machine: the values held by its hooks
    form a record, every handler is a function on that record, and what the
    handlers do to the browser (scrolling, [localStorage]) is made explicit
    as a list of effects and a finite map of stored keys. *)

From stdpp Require Import base strings list gmap.

Open Scope string_scope.
Open Scope list_scope.

(** ** Diff keys *)

(** The two fields of a parsed diff file that the component looks at. *)
Record DiffFile := {
  oldRevision : string;
  newRevision : string;
}.

(** [getDiffKey = ({ oldRevision, newRevision }) => `${oldRevision}${newRevision}`] *)
Definition getDiffKey (f : DiffFile) : string :=
  oldRevision f +:+ newRevision f.

(** ** The list of completed diffs *)

(** [Array.prototype.includes] on an array of strings. *)
Definition includes (l : list string) (x : string) : bool :=
  bool_decide (x ∈ l).

(** [handleCompleteDiff] reads [completedDiffs] from the render it was created
    in, and hands [setCompletedDiffs] an updater; the updater is what React
    later applies to the state it holds ([prevCompletedDiffs]).  The result of
    this function is that updater. *)
Definition handleCompleteDiff
    (completedDiffs : list string) (diffKey : string)
    : list string → list string :=
  if includes completedDiffs diffKey
  then λ prevCompletedDiffs,
         filter (λ completedDiff, completedDiff ≠ diffKey) prevCompletedDiffs
  else λ prevCompletedDiffs, prevCompletedDiffs ++ [diffKey].

(** [resetCompletedDiffs = () => setCompletedDiffs([])] : the new state. *)
Definition resetCompletedDiffs : list string := [].

(** A toggle issued from an up-to-date render: the list the handler tests is
    the list the updater is applied to. *)
Definition toggle (L : list string) (k : string) : list string :=
  handleCompleteDiff L k L.

(** The list as React holds it and as the last render saw it.  A handler
    closes over [rendered] (line 103 tests it); the updater it hands to
    [setCompletedDiffs] is applied to [current] (lines 104-109). *)
Record Completion := {
  current : list string;    (* the state, queued updates applied *)
  rendered : list string;   (* [completedDiffs] of the last render *)
}.

(** The first render: [useState([])]. *)
Definition initialCompletion : Completion :=
  {| current := []; rendered := [] |}.

(** The list [L], rendered. *)
Definition atRender (L : list string) : Completion :=
  {| current := L; rendered := L |}.

Inductive CompletionEvent :=
| CallHandleCompleteDiff (diffKey : string)  (* through the handler of the last render *)
| CallResetCompletedDiffs
| Rendered.                                  (* React renders the component again *)

Definition stepCompletion (c : Completion) (e : CompletionEvent)
    : Completion :=
  match e with
  | CallHandleCompleteDiff k =>
      {| current := handleCompleteDiff (rendered c) k (current c);
         rendered := rendered c |}
  | CallResetCompletedDiffs =>
      {| current := resetCompletedDiffs; rendered := rendered c |}
  | Rendered =>
      {| current := current c; rendered := current c |}
  end.

(** The list after a sequence of calls and renders. *)
Definition runCompletion (c : Completion) (es : list CompletionEvent)
    : Completion :=
  foldl stepCompletion c es.

(** The render is not behind the state on [k]: if [k] is in the list, it is
    in the list the handler tests. *)
Definition notBehindOn (c : Completion) (k : string) : bool :=
  implb (includes (current c) k) (includes (rendered c) k).

(** The render and the state agree on [k]. *)
Definition agreesOn (c : Completion) (k : string) : bool :=
  Bool.eqb (includes (rendered c) k) (includes (current c) k).

(** [P] holds at every [handleCompleteDiff] call of the sequence, for the
    key of the call and the lists as they are when the call is made. *)
Fixpoint everyCall (P : Completion → string → bool)
    (c : Completion) (es : list CompletionEvent) : bool :=
  match es with
  | [] => true
  | e :: es' =>
      match e with
      | CallHandleCompleteDiff k => P c k
      | _ => true
      end
      && everyCall P (stepCompletion c e) es'
  end.

(** A render after each call. *)
Definition renderAfterEach (es : list CompletionEvent)
    : list CompletionEvent :=
  es ≫= λ e, [e; Rendered].

(** The keys toggled since the list was last emptied by a reset, oldest
    first; [acc] holds those toggled before [es]. *)
Fixpoint keysSinceReset (acc : list string) (es : list CompletionEvent)
    : list string :=
  match es with
  | [] => acc
  | CallHandleCompleteDiff k :: es' => keysSinceReset (acc ++ [k]) es'
  | CallResetCompletedDiffs :: es' => keysSinceReset [] es'
  | Rendered :: es' => keysSinceReset acc es'
  end.

(** ** The browser, as far as the component touches it *)

(** A DOM node, by identity. *)
Definition Element := nat.

Inductive Effect :=
| ScrollIntoView (e : Element)        (* [ref.scrollIntoView()] *)
| ScrollIntoViewSmooth (e : Element)  (* [ref.current.scrollIntoView({ behavior: 'smooth' })] *)
| WindowScrollToTop                   (* [window.scrollTo({ top: 0, behavior: 'smooth' })] *)
| UncaughtTypeError.                  (* a method call on [null] *)

Record Browser := {
  location_hash : string;                    (* [window.location.hash] *)
  getElementById : string → option Element;  (* [None] is [null] *)
}.

(** A string in a boolean position: only the empty string is falsy. *)
Definition truthy (s : string) : bool :=
  match s with
  | EmptyString => false
  | String _ _ => true
  end.

(** [s.slice(1)] *)
Definition slice1 (s : string) : string :=
  match s with
  | EmptyString => EmptyString
  | String _ rest => rest
  end.

(** [a || b] where [a] is a string or [null] and [b] a string. *)
Definition orElse (a : option string) (b : string) : string :=
  match a with
  | Some v => if truthy v then v else b
  | None => b
  end.

(** [scrollToRef = (ref) => ref.current.scrollIntoView({ behavior: 'smooth' })];
    [None] is the [TypeError] raised when [ref.current] is [null]. *)
Definition scrollToRef (current : option Element) : option Effect :=
  ScrollIntoViewSmooth <$> current.

(** [jumpToAnchor]: the value returned and the calls made on the page. *)
Definition jumpToAnchor (w : Browser) (stopScrolling : bool)
    : bool * list Effect :=
  if negb (truthy (location_hash w)) || stopScrolling then (true, [])
  else
    match getElementById w (slice1 (location_hash w)) with
    | None => (true, [])
    | Some ref => (true, [ScrollIntoView ref])
    end.

(** ** What the component renders *)

(** [{ isLoading, isDone, diff } = useFetchDiff(...)]; the hook itself lives
    in another module, so its three outputs are inputs here. *)
Record FetchState := {
  isLoading : bool;
  isDone : bool;
  diff : list DiffFile;
}.

Record PopoverOpts := {
  content : string;
  cursorType : string;
}.

(** [donePopoverPossibleOpts.done] and [donePopoverPossibleOpts.top] *)
Definition donePopoverPossibleOpts_done : PopoverOpts :=
  {| content := "Scroll to Done section"; cursorType := "s-resize" |}.

Definition donePopoverPossibleOpts_top : PopoverOpts :=
  {| content := "Scroll to Top"; cursorType := "n-resize" |}.

Record Alert := {
  alertMessage : string;
  alertType : string;
}.

Definition upgradeDoneAlert : Alert :=
  {| alertMessage := "Your upgrade is done 🎉🎉"; alertType := "success" |}.

(** [diff.length === completedDiffs.length && <Alert ... />]; React draws
    nothing for [false], which is [None] here. *)
Definition renderUpgradeDoneMessage
    (diff : list DiffFile) (completedDiffs : list string) : option Alert :=
  if (length diff =? length completedDiffs)%nat
  then Some upgradeDoneAlert
  else None.

(** ** Component state *)

Record State := {
  (* hooks *)
  completedDiffs : list string;           (* [useState([])] *)
  isGoToDoneClicked : bool;               (* [useState(false)] *)
  donePopoverOpts : PopoverOpts;          (* [useState(donePopoverPossibleOpts.done)] *)
  diffViewStyle : string;                 (* [useState(localStorage.getItem('viewStyle') || 'split')] *)
  stopScrolling : bool;                   (* [useReducer(jumpToAnchor, false)] *)
  (* inputs of the last render *)
  shouldShowDiff : bool;
  fetch : FetchState;
  (* browser storage *)
  localStorage : gmap string string;
}.

Definition setCompletedDiffs (v : list string) (s : State) : State :=
  {| completedDiffs := v;
     isGoToDoneClicked := isGoToDoneClicked s;
     donePopoverOpts := donePopoverOpts s;
     diffViewStyle := diffViewStyle s;
     stopScrolling := stopScrolling s;
     shouldShowDiff := shouldShowDiff s;
     fetch := fetch s;
     localStorage := localStorage s |}.

Definition setIsGoToDoneClicked (v : bool) (s : State) : State :=
  {| completedDiffs := completedDiffs s;
     isGoToDoneClicked := v;
     donePopoverOpts := donePopoverOpts s;
     diffViewStyle := diffViewStyle s;
     stopScrolling := stopScrolling s;
     shouldShowDiff := shouldShowDiff s;
     fetch := fetch s;
     localStorage := localStorage s |}.

Definition setDonePopoverOpts (v : PopoverOpts) (s : State) : State :=
  {| completedDiffs := completedDiffs s;
     isGoToDoneClicked := isGoToDoneClicked s;
     donePopoverOpts := v;
     diffViewStyle := diffViewStyle s;
     stopScrolling := stopScrolling s;
     shouldShowDiff := shouldShowDiff s;
     fetch := fetch s;
     localStorage := localStorage s |}.

Definition setViewStyle (v : string) (s : State) : State :=
  {| completedDiffs := completedDiffs s;
     isGoToDoneClicked := isGoToDoneClicked s;
     donePopoverOpts := donePopoverOpts s;
     diffViewStyle := v;
     stopScrolling := stopScrolling s;
     shouldShowDiff := shouldShowDiff s;
     fetch := fetch s;
     localStorage := localStorage s |}.

Definition setStopScrolling (v : bool) (s : State) : State :=
  {| completedDiffs := completedDiffs s;
     isGoToDoneClicked := isGoToDoneClicked s;
     donePopoverOpts := donePopoverOpts s;
     diffViewStyle := diffViewStyle s;
     stopScrolling := v;
     shouldShowDiff := shouldShowDiff s;
     fetch := fetch s;
     localStorage := localStorage s |}.

Definition setRenderInputs (sh : bool) (f : FetchState) (s : State) : State :=
  {| completedDiffs := completedDiffs s;
     isGoToDoneClicked := isGoToDoneClicked s;
     donePopoverOpts := donePopoverOpts s;
     diffViewStyle := diffViewStyle s;
     stopScrolling := stopScrolling s;
     shouldShowDiff := sh;
     fetch := f;
     localStorage := localStorage s |}.

(** [localStorage.setItem(key, value)] *)
Definition setItem (key value : string) (s : State) : State :=
  {| completedDiffs := completedDiffs s;
     isGoToDoneClicked := isGoToDoneClicked s;
     donePopoverOpts := donePopoverOpts s;
     diffViewStyle := diffViewStyle s;
     stopScrolling := stopScrolling s;
     shouldShowDiff := shouldShowDiff s;
     fetch := fetch s;
     localStorage := <[key := value]> (localStorage s) |}.

(** [localStorage.getItem(key)] *)
Definition getItem (key : string) (storage : gmap string string)
    : option string :=
  storage !! key.

(** ** Handlers *)

(** [localStorage.getItem('viewStyle') || 'split'] *)
Definition initialViewStyle (storage : gmap string string) : string :=
  orElse (getItem "viewStyle" storage) "split".

(** [handleViewStyleChange] *)
Definition handleViewStyleChange (newViewStyle : string) (s : State) : State :=
  setItem "viewStyle" newViewStyle (setViewStyle newViewStyle s).

(** [handleCompletedFilesCounterClick]; [doneTitleRef] is [doneTitleRef.current]
    at the time of the click.  Both state setters are called before the
    scroll, so the state changes also when the scroll raises. *)
Definition handleCompletedFilesCounterClick
    (doneTitleRef : option Element) (s : State) : State * list Effect :=
  let s1 := setIsGoToDoneClicked (negb (isGoToDoneClicked s)) s in
  if isGoToDoneClicked s
  then (setDonePopoverOpts donePopoverPossibleOpts_done s1,
        [WindowScrollToTop])
  else (setDonePopoverOpts donePopoverPossibleOpts_top s1,
        match scrollToRef doneTitleRef with
        | Some e => [e]
        | None => [UncaughtTypeError]
        end).

(** [handleCompleteDiff] called from the current render: the updater it
    builds is applied to the current list. *)
Definition onCompleteDiff (diffKey : string) (s : State) : State :=
  setCompletedDiffs
    (handleCompleteDiff (completedDiffs s) diffKey (completedDiffs s)) s.

(** One [jumpToAnchorOnce] dispatch: the reducer is [jumpToAnchor], its
    state is [stopScrolling], the action is ignored. *)
Definition jumpToAnchorOnce (w : Browser) (s : State) : State * list Effect :=
  let r := jumpToAnchor w (stopScrolling s) in
  (setStopScrolling r.1 s, r.2).

(** The body of [useEffect(() => { if (!isDone) resetCompletedDiffs() }, [isDone])] *)
Definition isDoneEffect (s : State) : State :=
  if negb (isDone (fetch s))
  then setCompletedDiffs resetCompletedDiffs s
  else s.

(** First render of a fresh component instance, and its effect. *)
Definition mount (storage : gmap string string) (sh : bool) (f : FetchState)
    : State :=
  isDoneEffect
    {| completedDiffs := [];
       isGoToDoneClicked := false;
       donePopoverOpts := donePopoverPossibleOpts_done;
       diffViewStyle := initialViewStyle storage;
       stopScrolling := false;
       shouldShowDiff := sh;
       fetch := f;
       localStorage := storage |}.

(** A later render with new inputs; the effect runs only when the [isDone]
    dependency differs from the one of the render before. *)
Definition rerender (sh : bool) (f : FetchState) (s : State) : State :=
  let s' := setRenderInputs sh f s in
  if Bool.eqb (isDone f) (isDone (fetch s)) then s' else isDoneEffect s'.

(** ** The rendered tree *)

Record DiffView := {
  viewStyleShown : string;             (* [diffViewStyle] passed down *)
  completedShown : list string;        (* [completedDiffs] passed to [DiffSection] *)
  upgradeDoneMessage : option Alert;   (* line 220 *)
  counterCompleted : nat;              (* [completed={completedDiffs.length}] *)
  counterTotal : nat;                  (* [total={diff.length}] *)
  popoverContent : string;
  popoverCursorType : string;
}.

Inductive View :=
| ViewNull                  (* [return null] *)
| ViewLoading               (* [<DiffLoading />] *)
| ViewDiff (v : DiffView).

Definition render (s : State) : View :=
  if negb (shouldShowDiff s) then ViewNull
  else if isLoading (fetch s) then ViewLoading
  else ViewDiff
    {| viewStyleShown := diffViewStyle s;
       completedShown := completedDiffs s;
       upgradeDoneMessage :=
         renderUpgradeDoneMessage (diff (fetch s)) (completedDiffs s);
       counterCompleted := length (completedDiffs s);
       counterTotal := length (diff (fetch s));
       popoverContent := content (donePopoverOpts s);
       popoverCursorType := cursorType (donePopoverOpts s) |}.

(** The handlers are reachable only through the children of the full view. *)
Definition interactive (s : State) : bool :=
  match render s with
  | ViewDiff _ => true
  | _ => false
  end.

(** ** The component as a machine *)

Inductive Event :=
| Rerender (sh : bool) (f : FetchState)     (* new props or fetch state *)
| Reload (sh : bool) (f : FetchState)       (* page reload: a fresh instance *)
| OnCompleteDiff (diffKey : string)         (* [DiffSection] calls [handleCompleteDiff] *)
| OnCounterClick (doneTitleRef : option Element)
| OnViewStyleChange (newViewStyle : string)
| OnAnimationComplete (w : Browser).

Definition step (s : State) (e : Event) : option (State * list Effect) :=
  match e with
  | Rerender sh f => Some (rerender sh f s, [])
  | Reload sh f => Some (mount (localStorage s) sh f, [])
  | OnCompleteDiff k =>
      if interactive s then Some (onCompleteDiff k s, []) else None
  | OnCounterClick r =>
      if interactive s then Some (handleCompletedFilesCounterClick r s)
      else None
  | OnViewStyleChange v =>
      if interactive s then Some (handleViewStyleChange v s, []) else None
  | OnAnimationComplete w =>
      if interactive s then Some (jumpToAnchorOnce w s) else None
  end.

Fixpoint run (s : State) (es : list Event) : option (State * list Effect) :=
  match es with
  | [] => Some (s, [])
  | e :: es' =>
      match step s e with
      | None => None
      | Some (s1, fx1) =>
          match run s1 es' with
          | None => None
          | Some (s2, fx2) => Some (s2, fx1 ++ fx2)
          end
      end
  end.

(** Successive [jumpToAnchorOnce] dispatches, each in the page as it is then. *)
Fixpoint dispatches (stop : bool) (ws : list Browser) : bool * list Effect :=
  match ws with
  | [] => (stop, [])
  | w :: ws' =>
      let r := jumpToAnchor w stop in
      let r' := dispatches r.1 ws' in
      (r'.1, r.2 ++ r'.2)
  end.

(** What [useFetchDiff] is relied on for: while a fetch is not done it
    reports loading. *)
Definition fetchContract (f : FetchState) : Prop :=
  isDone f = false → isLoading f = true.

Definition respectsFetchContract (e : Event) : Prop :=
  match e with
  | Rerender _ f | Reload _ f => fetchContract f
  | _ => True
  end.

(** The flag and the popover configuration move together. *)
Definition popoverCoupled (s : State) : Prop :=
  donePopoverOpts s =
    if isGoToDoneClicked s
    then donePopoverPossibleOpts_top
    else donePopoverPossibleOpts_done.

(** While the fetch is not done the list is empty, and the fetch state of
    the last render respects the contract. *)
Definition emptyWhileFetching (s : State) : Prop :=
  fetchContract (fetch s)
  ∧ (isDone (fetch s) = false → completedDiffs s = []).

Definition isViewStyleChange (e : Event) : bool :=
  match e with
  | OnViewStyleChange _ => true
  | _ => false
  end.

Definition isReload (e : Event) : bool :=
  match e with
  | Reload _ _ => true
  | _ => false
  end.

(** ** The changelog link *)

(** [String.prototype.includes]: [sub] occurs somewhere in [s]. *)
Fixpoint stringIncludes (s sub : string) : bool :=
  String.prefix sub s ||
  match s with
  | EmptyString => false
  | String _ rest => stringIncludes rest sub
  end.

(** [<Link href={href} target="_blank" rel="noreferrer">changelog</Link>] *)
Record Link := {
  href : string;
  target : string;
  rel : string;
}.

(** Lines 136-144: [changelog] stays [undefined] ([None]) for a version that
    contains ['-rc'].  [getChangelogURL] is imported from [utils] and is a
    parameter here; it is called with [{ packageName, version: toVersion }]. *)
Definition changelog (getChangelogURL : string → string → string)
    (packageName toVersion : string) : option Link :=
  if negb (stringIncludes toVersion "-rc")
  then Some {| href := getChangelogURL packageName toVersion;
               target := "_blank";
               rel := "noreferrer" |}
  else None.

(** ** Vocabulary of the further properties *)

(** The keys under which [DiffSection] finds the files of a diff. *)
Definition diffKeys (d : list DiffFile) : list string :=
  getDiffKey <$> d.

(** A call that toggles the key of one of the files of [d]; a reset or a
    render. *)
Definition callFromDiff (d : list DiffFile) (e : CompletionEvent) : Prop :=
  match e with
  | CallHandleCompleteDiff k => k ∈ diffKeys d
  | _ => True
  end.

(** How often [k] occurs in [ks]. *)
Definition occurrences (k : string) (ks : list string) : nat :=
  length (filter (λ x, x = k) ks).

(** The [scrollIntoView] of [jumpToAnchor], as opposed to the smooth scroll
    of [scrollToRef]. *)
Definition isAnchorScroll (x : Effect) : bool :=
  match x with
  | ScrollIntoView _ => true
  | _ => false
  end.

Definition anchorScrolls (fx : list Effect) : nat :=
  length (filter (λ x, isAnchorScroll x = true) fx).

(** The event that stores the empty string as view style. *)
Definition choosesEmptyStyle (e : Event) : bool :=
  match e with
  | OnViewStyleChange v => negb (truthy v)
  | _ => false
  end.

(** State and storage agree on the view style. *)
Definition viewStylePersisted (s : State) : Prop :=
  diffViewStyle s = initialViewStyle (localStorage s).

(** * Properties *)

(** ** The toggle on the completed list *)

Section Toggle.
Implicit Types (L snapshot prev : list string) (k j : string).

Lemma includes_true L k : includes L k = true ↔ k ∈ L.
Proof. unfold includes. apply bool_decide_eq_true. Qed.

Lemma includes_false L k : includes L k = false ↔ k ∉ L.
Proof. unfold includes. apply bool_decide_eq_false. Qed.

(** The branch is chosen by the list of the render, the work is done on
    the list of the state. *)
Lemma handleCompleteDiff_present snapshot prev k :
  k ∈ snapshot →
  handleCompleteDiff snapshot k prev = filter (λ c, c ≠ k) prev.
Proof.
  intros Hin. unfold handleCompleteDiff.
  by rewrite (proj2 (includes_true _ _) Hin).
Qed.

Lemma handleCompleteDiff_absent snapshot prev k :
  k ∉ snapshot →
  handleCompleteDiff snapshot k prev = prev ++ [k].
Proof.
  intros Hnot. unfold handleCompleteDiff.
  by rewrite (proj2 (includes_false _ _) Hnot).
Qed.

Lemma handleCompleteDiff_other snapshot prev k j :
  j ≠ k →
  j ∈ handleCompleteDiff snapshot k prev ↔ j ∈ prev.
Proof.
  intros Hne. destruct (decide (k ∈ snapshot)) as [Hin | Hnot].
  - rewrite handleCompleteDiff_present by done.
    rewrite list_elem_of_filter. tauto.
  - rewrite handleCompleteDiff_absent by done.
    rewrite elem_of_app, list_elem_of_singleton. tauto.
Qed.

(** Duplicates cannot appear as long as the render is not behind the state
    on the key being toggled. *)
Lemma handleCompleteDiff_NoDup snapshot prev k :
  (k ∈ prev → k ∈ snapshot) →
  NoDup prev →
  NoDup (handleCompleteDiff snapshot k prev).
Proof.
  intros Hsync Hnd. destruct (decide (k ∈ snapshot)) as [Hin | Hnot].
  - rewrite handleCompleteDiff_present by done. by apply NoDup_filter.
  - rewrite handleCompleteDiff_absent by done.
    apply NoDup_app. split_and!; [done | | apply NoDup_singleton].
    intros x Hx ->%list_elem_of_singleton. auto.
Qed.

Lemma toggle_NoDup L k : NoDup L → NoDup (toggle L k).
Proof. intros. by apply handleCompleteDiff_NoDup. Qed.

Lemma notBehindOn_true c k :
  notBehindOn c k = true ↔ (k ∈ current c → k ∈ rendered c).
Proof.
  unfold notBehindOn.
  destruct (includes (current c) k) eqn:Hc, (includes (rendered c) k) eqn:Hr;
    simpl;
    repeat match goal with
           | H : includes _ _ = true |- _ => apply includes_true in H
           | H : includes _ _ = false |- _ => apply includes_false in H
           end;
    split; auto; try done.
Qed.

Lemma agreesOn_true c k :
  agreesOn c k = true ↔ includes (rendered c) k = includes (current c) k.
Proof.
  unfold agreesOn.
  by destruct (includes (rendered c) k), (includes (current c) k).
Qed.

Lemma agreesOn_notBehindOn c k :
  agreesOn c k = true → notBehindOn c k = true.
Proof.
  unfold agreesOn, notBehindOn.
  by destruct (includes (rendered c) k), (includes (current c) k).
Qed.

Lemma everyCall_mono (P Q : Completion → string → bool) es :
  (∀ c k, P c k = true → Q c k = true) →
  ∀ c, everyCall P c es = true → everyCall Q c es = true.
Proof.
  intros HPQ. induction es as [| e es IH]; intros c; [done |].
  cbn [everyCall]. rewrite !andb_true_iff. intros [He Hes].
  split; [| by apply IH]. destruct e; auto.
Qed.

Lemma stepCompletion_NoDup c e :
  match e with
  | CallHandleCompleteDiff k => notBehindOn c k = true
  | _ => True
  end →
  NoDup (current c) → NoDup (current (stepCompletion c e)).
Proof.
  destruct e as [k | |]; simpl; intros He Hnd.
  - apply handleCompleteDiff_NoDup; [| done]. by apply notBehindOn_true.
  - apply NoDup_nil_2.
  - done.
Qed.

Lemma runCompletion_NoDup es : ∀ c,
  everyCall notBehindOn c es = true →
  NoDup (current c) → NoDup (current (runCompletion c es)).
Proof.
  induction es as [| e es IH]; intros c Hes Hnd; [done |].
  cbn [everyCall] in Hes. apply andb_true_iff in Hes as [He Hes].
  unfold runCompletion. cbn [foldl]. apply IH; [done |].
  apply stepCompletion_NoDup; [| done]. by destruct e.
Qed.

(** A render after each call keeps the render and the state in agreement. *)
Lemma everyCall_renderAfterEach es : ∀ L,
  everyCall agreesOn (atRender L) (renderAfterEach es) = true.
Proof.
  induction es as [| e es IH]; intros L; [done |].
  unfold renderAfterEach. cbn [mbind list_bind app].
  fold (renderAfterEach es). cbn [everyCall].
  rewrite andb_true_iff. split.
  - destruct e; try done. apply agreesOn_true. done.
  - apply (IH (current (stepCompletion (atRender L) e))).
Qed.

Lemma toggle_present_absent L k : k ∈ L → k ∉ toggle L k.
Proof.
  intros Hin. unfold toggle. rewrite handleCompleteDiff_present by done.
  rewrite list_elem_of_filter. tauto.
Qed.

Lemma toggle_absent_present L k : k ∉ L → k ∈ toggle L k.
Proof.
  intros Hnot. unfold toggle. rewrite handleCompleteDiff_absent by done.
  rewrite elem_of_app, list_elem_of_singleton. by right.
Qed.

Lemma toggle_twice_elem_of L k j : j ∈ toggle (toggle L k) k ↔ j ∈ L.
Proof.
  destruct (decide (j = k)) as [-> | Hne].
  - destruct (decide (k ∈ L)) as [Hin | Hnot].
    + split; [done | intros _].
      by apply toggle_absent_present, toggle_present_absent.
    + split; [| done]. intros Hin. exfalso.
      by eapply toggle_present_absent; [apply toggle_absent_present |].
  - unfold toggle. by rewrite !handleCompleteDiff_other.
Qed.

(** When the key was absent the list comes back unchanged, order included. *)
Lemma toggle_twice_absent L k : k ∉ L → toggle (toggle L k) k = L.
Proof.
  intros Hnot. unfold toggle at 1.
  rewrite handleCompleteDiff_present by by apply toggle_absent_present.
  unfold toggle. rewrite handleCompleteDiff_absent by done.
  rewrite filter_app, filter_cons_False, filter_nil, app_nil_r by auto.
  induction L as [| x L IH]; [done |].
  apply not_elem_of_cons in Hnot as [Hx HL].
  rewrite filter_cons_True by done. f_equal. by apply IH.
Qed.
End Toggle.

(** The other side of [handleCompleteDiff_NoDup]: an updater built from a
    render that is behind the state on the key appends it a second time. *)
Example handleCompleteDiff_stale_render :
  handleCompleteDiff [] "k" ["k"] = ["k"; "k"].
Proof. reflexivity. Qed.

Example toggle_removes_every_occurrence : toggle ["b"; "a"; "b"] "b" = ["a"].
Proof. reflexivity. Qed.

(** C1. [handleCompleteDiff] is a membership toggle.  Called with a key that
    is in the list, it yields the list filtered by [completedDiff !== diffKey],
    in which the key no longer occurs; called with a key that is not in the
    list, it yields the list with the key appended at the end. *)
Theorem handleCompleteDiff_membership_toggle (L : list string) (k : string) :
  (k ∈ L →
     handleCompleteDiff L k L = filter (λ c, c ≠ k) L
     ∧ k ∉ handleCompleteDiff L k L)
  ∧ (k ∉ L → handleCompleteDiff L k L = L ++ [k]).
Proof.
  split.
  - intros Hin. split.
    + by apply handleCompleteDiff_present.
    + by apply toggle_present_absent.
  - apply handleCompleteDiff_absent.
Qed.

Lemma handleCompleteDiff_membership_toggle_witness :
  ("b" ∈ ["a"; "b"; "c"] ∧
   handleCompleteDiff ["a"; "b"; "c"] "b" ["a"; "b"; "c"] = ["a"; "c"])
  ∧ (("d" ∉ ["a"; "b"; "c"]) ∧
     handleCompleteDiff ["a"; "b"; "c"] "d" ["a"; "b"; "c"]
     = ["a"; "b"; "c"; "d"]).
Proof.
  assert (Hin : "b" ∈ ["a"; "b"; "c"]) by (apply (bool_decide_unpack _); vm_compute; exact I).
  assert (Hnot : "d" ∉ ["a"; "b"; "c"]) by (apply (bool_decide_unpack _); vm_compute; exact I).
  refine (conj (conj Hin _) (conj Hnot _)).
  - exact (proj1 (proj1 (handleCompleteDiff_membership_toggle _ "b") Hin)).
  - exact (proj2 (handleCompleteDiff_membership_toggle _ "d") Hnot).
Defined.

(** C2, as stated, fails: two calls of [handleCompleteDiff] with the same key
    through the handler of one render both find the key absent from the
    render's list and both append it. *)
Lemma completedDiffs_duplicate_in_one_render :
  current (runCompletion initialCompletion
             [CallHandleCompleteDiff "k"; CallHandleCompleteDiff "k"])
  = ["k"; "k"]
  ∧ ¬ NoDup (current (runCompletion initialCompletion
                        [CallHandleCompleteDiff "k";
                         CallHandleCompleteDiff "k"])).
Proof.
  split; [reflexivity |].
  apply (bool_decide_unpack _). vm_compute. exact I.
Qed.

(** C2 (amended). Starting from the empty list, a sequence of
    [handleCompleteDiff] calls, [resetCompletedDiffs] calls and renders leads
    to no list with a duplicate key, provided no call is made through a
    render that is behind the state on the key of the call: a key that is in
    the list is in the list the handler tests.  This is so in particular
    when the component is rendered between two calls with the same key. *)
Theorem completedDiffs_NoDup (es : list CompletionEvent) :
  everyCall notBehindOn initialCompletion es = true →
  NoDup (current (runCompletion initialCompletion es)).
Proof. intros Hes. apply runCompletion_NoDup; [done | apply NoDup_nil_2]. Qed.

Lemma completedDiffs_NoDup_witness :
  everyCall notBehindOn initialCompletion
    [CallHandleCompleteDiff "a"; CallHandleCompleteDiff "b"; Rendered;
     CallHandleCompleteDiff "a"; CallResetCompletedDiffs;
     CallHandleCompleteDiff "b"; Rendered; CallHandleCompleteDiff "b"]
  = true
  ∧ NoDup (current (runCompletion initialCompletion
                      [CallHandleCompleteDiff "a"; CallHandleCompleteDiff "b";
                       Rendered; CallHandleCompleteDiff "a";
                       CallResetCompletedDiffs; CallHandleCompleteDiff "b";
                       Rendered; CallHandleCompleteDiff "b"])).
Proof.
  split; [reflexivity |].
  apply completedDiffs_NoDup. reflexivity.
Defined.

(** C3. Toggling one key leaves the membership of every other key as it was. *)
Theorem handleCompleteDiff_frame (L : list string) (k j : string) :
  j ≠ k →
  j ∈ handleCompleteDiff L k L ↔ j ∈ L.
Proof. apply handleCompleteDiff_other. Qed.

Lemma handleCompleteDiff_frame_witness :
  "a" ≠ "b" ∧
  ("a" ∈ handleCompleteDiff ["a"; "b"] "b" ["a"; "b"] ↔ "a" ∈ ["a"; "b"]).
Proof.
  split; [done |].
  apply (handleCompleteDiff_frame ["a"; "b"] "b" "a"). done.
Defined.

(** C4, as stated, fails: two successive calls through the handler of one
    render take the same branch.  From the empty list both append, and the
    key is a member afterwards; from a list that holds the key both filter,
    and the key is no member afterwards. *)
Lemma toggle_twice_in_one_render :
  NoDup ([] : list string)
  ∧ current (runCompletion (atRender [])
               [CallHandleCompleteDiff "k"; CallHandleCompleteDiff "k"])
    = ["k"; "k"]
  ∧ ¬ (∀ j,
         j ∈ current (runCompletion (atRender [])
                        [CallHandleCompleteDiff "k";
                         CallHandleCompleteDiff "k"])
         ↔ j ∈ ([] : list string))
  ∧ NoDup ["a"; "k"]
  ∧ current (runCompletion (atRender ["a"; "k"])
               [CallHandleCompleteDiff "k"; CallHandleCompleteDiff "k"])
    = ["a"]
  ∧ ¬ (∀ j,
         j ∈ current (runCompletion (atRender ["a"; "k"])
                        [CallHandleCompleteDiff "k";
                         CallHandleCompleteDiff "k"])
         ↔ j ∈ ["a"; "k"]).
Proof.
  split_and!.
  - apply NoDup_nil_2.
  - reflexivity.
  - intros H. specialize (H "k"). apply (elem_of_nil "k"), H.
    apply (bool_decide_unpack _). vm_compute. exact I.
  - apply (bool_decide_unpack _). vm_compute. exact I.
  - reflexivity.
  - intros H. specialize (H "k").
    assert (Hin : "k" ∈ ["a"; "k"])
      by (apply (bool_decide_unpack _); vm_compute; exact I).
    apply H in Hin. revert Hin.
    apply (bool_decide_unpack _). vm_compute. exact I.
Qed.

(** C4 (amended). On a duplicate-free list, two calls of [handleCompleteDiff]
    with the same key, with a render between them, give back a list with
    exactly the members of the original: the same keys, each once.  The
    result is a rearrangement of the original list, and the original list
    itself when the key was not in it. *)
Theorem toggle_twice_same_members (L : list string) (k : string) :
  NoDup L →
  (∀ j,
     j ∈ current (runCompletion (atRender L)
                    [CallHandleCompleteDiff k; Rendered;
                     CallHandleCompleteDiff k])
     ↔ j ∈ L)
  ∧ NoDup (current (runCompletion (atRender L)
                      [CallHandleCompleteDiff k; Rendered;
                       CallHandleCompleteDiff k]))
  ∧ current (runCompletion (atRender L)
               [CallHandleCompleteDiff k; Rendered; CallHandleCompleteDiff k])
    ≡ₚ L
  ∧ (k ∉ L →
     current (runCompletion (atRender L)
                [CallHandleCompleteDiff k; Rendered; CallHandleCompleteDiff k])
     = L).
Proof.
  intros Hnd.
  change (current (runCompletion (atRender L)
                     [CallHandleCompleteDiff k; Rendered;
                      CallHandleCompleteDiff k]))
    with (toggle (toggle L k) k).
  assert (Hnd2 : NoDup (toggle (toggle L k) k)) by by do 2 apply toggle_NoDup.
  split_and!; [apply toggle_twice_elem_of | done | | apply toggle_twice_absent].
  apply NoDup_Permutation; [done | done |].
  intros j. apply toggle_twice_elem_of.
Qed.

Lemma toggle_twice_same_members_witness :
  NoDup ["a"; "b"; "c"] ∧
  current (runCompletion (atRender ["a"; "b"; "c"])
             [CallHandleCompleteDiff "b"; Rendered;
              CallHandleCompleteDiff "b"])
  ≡ₚ ["a"; "b"; "c"].
Proof.
  assert (Hnd : NoDup ["a"; "b"; "c"])
    by (apply (bool_decide_unpack _); vm_compute; exact I).
  split; [done |].
  exact (proj1 (proj2 (proj2
           (toggle_twice_same_members ["a"; "b"; "c"] "b" Hnd)))).
Defined.

(** C8. [getDiffKey] is the concatenation of the two revisions, and it is
    not injective: two different pairs of revisions have the same key, so
    that marking one of the two diffs complete marks the other as well. *)
Theorem getDiffKey_not_injective :
  (∀ f, getDiffKey f = oldRevision f +:+ newRevision f)
  ∧ ∃ f g,
      f ≠ g
      ∧ getDiffKey f = getDiffKey g
      ∧ includes (toggle [] (getDiffKey f)) (getDiffKey g) = true.
Proof.
  split; [done |].
  exists {| oldRevision := "a"; newRevision := "bc" |},
         {| oldRevision := "ab"; newRevision := "c" |}.
  split_and!; [discriminate | reflexivity | reflexivity].
Qed.

(** ** The one-shot scroll to the anchor *)

Section Anchor.
Implicit Types (w : Browser) (ws : list Browser) (stop : bool).

Lemma jumpToAnchor_returns_true w stop : (jumpToAnchor w stop).1 = true.
Proof.
  unfold jumpToAnchor.
  destruct (negb (truthy (location_hash w)) || stop); [done |].
  by destruct (getElementById w (slice1 (location_hash w))).
Qed.

(** The four ways through the function. *)
Lemma jumpToAnchor_no_hash w stop :
  location_hash w = "" → jumpToAnchor w stop = (true, []).
Proof. unfold jumpToAnchor. by intros ->. Qed.

Lemma jumpToAnchor_stopped w : jumpToAnchor w true = (true, []).
Proof. unfold jumpToAnchor. by rewrite orb_true_r. Qed.

Lemma jumpToAnchor_missing w :
  getElementById w (slice1 (location_hash w)) = None →
  jumpToAnchor w false = (true, []).
Proof.
  unfold jumpToAnchor. intros ->.
  by destruct (negb (truthy (location_hash w)) || false).
Qed.

Lemma jumpToAnchor_scrolls w ref :
  truthy (location_hash w) = true →
  getElementById w (slice1 (location_hash w)) = Some ref →
  jumpToAnchor w false = (true, [ScrollIntoView ref]).
Proof. unfold jumpToAnchor. by intros -> ->. Qed.

Lemma jumpToAnchor_at_most_once w stop :
  (length (jumpToAnchor w stop).2 ≤ 1)%nat.
Proof.
  unfold jumpToAnchor.
  destruct (negb (truthy (location_hash w)) || stop); simpl; [lia |].
  destruct (getElementById w (slice1 (location_hash w))); simpl; lia.
Qed.

Lemma jumpToAnchor_branches w stop :
  jumpToAnchor w stop = (true, [])
  ∨ ∃ ref,
      stop = false
      ∧ truthy (location_hash w) = true
      ∧ getElementById w (slice1 (location_hash w)) = Some ref
      ∧ jumpToAnchor w stop = (true, [ScrollIntoView ref]).
Proof.
  destruct stop; [left; apply jumpToAnchor_stopped |].
  destruct (truthy (location_hash w)) eqn:Hhash.
  - destruct (getElementById w (slice1 (location_hash w))) as [ref |] eqn:Hel.
    + right. exists ref. split_and!; try done.
      by apply jumpToAnchor_scrolls.
    + left. by apply jumpToAnchor_missing.
  - left. apply jumpToAnchor_no_hash.
    by destruct (location_hash w).
Qed.

Lemma dispatches_stopped ws : dispatches true ws = (true, []).
Proof.
  induction ws as [| w ws IH]; [done |].
  cbn [dispatches]. rewrite jumpToAnchor_stopped. cbn [fst snd].
  by rewrite IH.
Qed.

Lemma dispatches_first w ws :
  dispatches false (w :: ws) = (true, (jumpToAnchor w false).2).
Proof.
  cbn [dispatches]. rewrite jumpToAnchor_returns_true, dispatches_stopped.
  cbn [fst snd]. by rewrite app_nil_r.
Qed.
End Anchor.

(** ** The component machine *)

Section Machine.
Implicit Types (s : State) (e : Event) (es : list Event)
               (fx : list Effect) (f : FetchState).

Lemma run_cons_inv s e es s2 fx :
  run s (e :: es) = Some (s2, fx) →
  ∃ s1 fx1 fx2,
    step s e = Some (s1, fx1) ∧ run s1 es = Some (s2, fx2)
    ∧ fx = fx1 ++ fx2.
Proof.
  cbn [run]. destruct (step s e) as [[s1 fx1] |]; [| done].
  destruct (run s1 es) as [[s2' fx2] |] eqn:Hrun; [| done].
  intros [= <- <-]. by exists s1, fx1, fx2.
Qed.

(** A property kept by every step holds all along a run. *)
Lemma run_invariant (P : State → Prop) (Q : Event → Prop) :
  (∀ s e s' fx, Q e → P s → step s e = Some (s', fx) → P s') →
  ∀ es s s' fx,
    Forall Q es → P s → run s es = Some (s', fx) → P s'.
Proof.
  intros Hstep. induction es as [| e es IH]; intros s s' fx HQ HP Hrun.
  - simpl in Hrun. by simplify_eq.
  - apply run_cons_inv in Hrun as (s1 & fx1 & fx2 & Hs & Hr & _).
    apply Forall_cons in HQ as [He Hes]. eauto.
Qed.

Lemma Forall_True_event es : Forall (λ _ : Event, True) es.
Proof. by apply Forall_forall. Qed.

Lemma interactive_not_loading s :
  interactive s = true → isLoading (fetch s) = false.
Proof.
  unfold interactive, render.
  destruct (shouldShowDiff s); simpl; [| done].
  by destruct (isLoading (fetch s)).
Qed.

Lemma isDoneEffect_fields s :
  isGoToDoneClicked (isDoneEffect s) = isGoToDoneClicked s
  ∧ donePopoverOpts (isDoneEffect s) = donePopoverOpts s
  ∧ diffViewStyle (isDoneEffect s) = diffViewStyle s
  ∧ stopScrolling (isDoneEffect s) = stopScrolling s
  ∧ fetch (isDoneEffect s) = fetch s
  ∧ shouldShowDiff (isDoneEffect s) = shouldShowDiff s
  ∧ localStorage (isDoneEffect s) = localStorage s.
Proof. unfold isDoneEffect. by destruct (negb (isDone (fetch s))). Qed.

Lemma isDoneEffect_not_done s :
  isDone (fetch s) = false → completedDiffs (isDoneEffect s) = [].
Proof. unfold isDoneEffect. by intros ->. Qed.

Lemma isDoneEffect_NoDup s :
  NoDup (completedDiffs s) → NoDup (completedDiffs (isDoneEffect s)).
Proof.
  unfold isDoneEffect. destruct (negb (isDone (fetch s))); [| done].
  intros _. apply NoDup_nil_2.
Qed.

Lemma rerender_fields sh f s :
  isGoToDoneClicked (rerender sh f s) = isGoToDoneClicked s
  ∧ donePopoverOpts (rerender sh f s) = donePopoverOpts s
  ∧ diffViewStyle (rerender sh f s) = diffViewStyle s
  ∧ stopScrolling (rerender sh f s) = stopScrolling s
  ∧ fetch (rerender sh f s) = f
  ∧ shouldShowDiff (rerender sh f s) = sh
  ∧ localStorage (rerender sh f s) = localStorage s.
Proof.
  unfold rerender. destruct (Bool.eqb (isDone f) (isDone (fetch s))).
  - done.
  - pose proof (isDoneEffect_fields (setRenderInputs sh f s)). naive_solver.
Qed.

Lemma mount_fields storage sh f :
  completedDiffs (mount storage sh f) = []
  ∧ isGoToDoneClicked (mount storage sh f) = false
  ∧ donePopoverOpts (mount storage sh f) = donePopoverPossibleOpts_done
  ∧ diffViewStyle (mount storage sh f) = initialViewStyle storage
  ∧ stopScrolling (mount storage sh f) = false
  ∧ fetch (mount storage sh f) = f
  ∧ shouldShowDiff (mount storage sh f) = sh
  ∧ localStorage (mount storage sh f) = storage.
Proof. unfold mount, isDoneEffect. simpl. by destruct (negb (isDone f)). Qed.
End Machine.

Section MachineInvariants.
Implicit Types (s : State) (e : Event) (es : list Event)
               (fx : list Effect) (f : FetchState).

Ltac step_cases H :=
  match type of H with
  | step ?s ?e = Some _ =>
      destruct e; cbn [step] in H;
      try (destruct (interactive s) eqn:?; [| discriminate H]);
      lazymatch type of H with
      | Some (pair _ _) = Some _ => injection H as <- <-
      | Some _ = Some _ => apply (inj Some) in H
      end
  end.

(** *** No duplicates, on the whole machine *)

Lemma step_NoDup s e s' fx :
  NoDup (completedDiffs s) → step s e = Some (s', fx) →
  NoDup (completedDiffs s').
Proof.
  intros Hnd H. step_cases H.
  - unfold rerender. destruct (Bool.eqb _ _); [done |].
    by apply isDoneEffect_NoDup.
  - rewrite (proj1 (mount_fields _ _ _)). apply NoDup_nil_2.
  - simpl. by apply toggle_NoDup.
  - unfold handleCompletedFilesCounterClick in H.
    destruct (isGoToDoneClicked s); by simplify_eq.
  - done.
  - unfold jumpToAnchorOnce in H. by simplify_eq.
Qed.

Lemma run_NoDup storage sh f es s fx :
  run (mount storage sh f) es = Some (s, fx) → NoDup (completedDiffs s).
Proof.
  intros Hrun.
  eapply (run_invariant (λ s, NoDup (completedDiffs s)) (λ _, True));
    [| apply Forall_True_event | | exact Hrun].
  - intros ? ? ? ? _. apply step_NoDup.
  - rewrite (proj1 (mount_fields _ _ _)). apply NoDup_nil_2.
Qed.

(** *** The popover configuration *)

Lemma step_popoverCoupled s e s' fx :
  popoverCoupled s → step s e = Some (s', fx) → popoverCoupled s'.
Proof.
  unfold popoverCoupled. intros Hc H. step_cases H.
  - destruct (rerender_fields sh f s) as (-> & -> & _). done.
  - destruct (mount_fields (localStorage s) sh f) as (_ & -> & -> & _). done.
  - done.
  - unfold handleCompletedFilesCounterClick in H.
    destruct (isGoToDoneClicked s); by simplify_eq.
  - done.
  - unfold jumpToAnchorOnce in H. by simplify_eq.
Qed.

Lemma run_popoverCoupled storage sh f es s fx :
  run (mount storage sh f) es = Some (s, fx) → popoverCoupled s.
Proof.
  intros Hrun.
  eapply (run_invariant popoverCoupled (λ _, True));
    [| apply Forall_True_event | | exact Hrun].
  - intros ? ? ? ? _. apply step_popoverCoupled.
  - unfold popoverCoupled.
    by destruct (mount_fields storage sh f) as (_ & -> & -> & _).
Qed.

Lemma click_popover doneTitleRef s :
  donePopoverOpts (handleCompletedFilesCounterClick doneTitleRef s).1 =
    if isGoToDoneClicked s
    then donePopoverPossibleOpts_done
    else donePopoverPossibleOpts_top.
Proof.
  unfold handleCompletedFilesCounterClick.
  by destruct (isGoToDoneClicked s).
Qed.

(** *** Browser storage *)

Lemma step_localStorage s e s' fx :
  isViewStyleChange e = false → step s e = Some (s', fx) →
  localStorage s' = localStorage s.
Proof.
  intros He H. step_cases H; try done.
  - by destruct (rerender_fields sh f s) as (_ & _ & _ & _ & _ & _ & ->).
  - by destruct (mount_fields (localStorage s) sh f)
      as (_ & _ & _ & _ & _ & _ & _ & ->).
  - unfold handleCompletedFilesCounterClick in H.
    destruct (isGoToDoneClicked s); by simplify_eq.
  - unfold jumpToAnchorOnce in H. by simplify_eq.
Qed.

Lemma handleViewStyleChange_other_keys v s key :
  key ≠ "viewStyle" →
  localStorage (handleViewStyleChange v s) !! key = localStorage s !! key.
Proof. intros Hne. simpl. by rewrite lookup_insert_ne. Qed.

Lemma step_other_keys s e s' fx key :
  key ≠ "viewStyle" → step s e = Some (s', fx) →
  localStorage s' !! key = localStorage s !! key.
Proof.
  intros Hne H. destruct (isViewStyleChange e) eqn:He.
  - destruct e; try discriminate He. cbn [step] in H.
    destruct (interactive s); [| done]. simplify_eq.
    by apply handleViewStyleChange_other_keys.
  - by rewrite (step_localStorage _ _ _ _ He H).
Qed.

Lemma orElse_nonempty v d : v ≠ "" → orElse (Some v) d = v.
Proof. by destruct v. Qed.

(** *** The completed list while fetching *)

Lemma step_emptyWhileFetching s e s' fx :
  respectsFetchContract e → emptyWhileFetching s →
  step s e = Some (s', fx) → emptyWhileFetching s'.
Proof.
  unfold emptyWhileFetching. intros He [Hc Hemp] H. step_cases H.
  - simpl in He.
    destruct (rerender_fields sh f s) as (_ & _ & _ & _ & -> & _).
    split; [done |]. intros Hf. unfold rerender.
    destruct (Bool.eqb (isDone f) (isDone (fetch s))) eqn:Heq.
    + apply Bool.eqb_prop in Heq. simpl. apply Hemp. congruence.
    + by apply isDoneEffect_not_done.
  - simpl in He.
    destruct (mount_fields (localStorage s) sh f)
      as (-> & _ & _ & _ & _ & -> & _).
    done.
  - simpl. split; [done |]. intros Hf.
    pose proof (interactive_not_loading s ltac:(done)) as Hl.
    specialize (Hc Hf). congruence.
  - unfold handleCompletedFilesCounterClick in H.
    destruct (isGoToDoneClicked s); by simplify_eq.
  - done.
  - unfold jumpToAnchorOnce in H. by simplify_eq.
Qed.

Lemma mount_emptyWhileFetching storage sh f :
  fetchContract f → emptyWhileFetching (mount storage sh f).
Proof.
  intros Hf. unfold emptyWhileFetching.
  by destruct (mount_fields storage sh f) as (-> & _ & _ & _ & _ & -> & _).
Qed.
(** *** The reducer state *)

Lemma step_stopScrolling s e s' fx :
  isReload e = false → stopScrolling s = true →
  step s e = Some (s', fx) →
  stopScrolling s' = true ∧ ∀ el, ScrollIntoView el ∉ fx.
Proof.
  intros He Hstop H. step_cases H; try discriminate He.
  - destruct (rerender_fields sh f s) as (_ & _ & _ & -> & _).
    split; [done |]. intros el Hin. by apply elem_of_nil in Hin.
  - split; [done |]. intros el Hin. by apply elem_of_nil in Hin.
  - unfold handleCompletedFilesCounterClick in H.
    destruct (isGoToDoneClicked s); simplify_eq; (split; [done |]).
    + intros el Hin%list_elem_of_singleton. discriminate Hin.
    + intros el Hin. destruct doneTitleRef; simpl in Hin;
        apply list_elem_of_singleton in Hin; discriminate Hin.
  - split; [done |]. intros el Hin. by apply elem_of_nil in Hin.
  - unfold jumpToAnchorOnce in H. rewrite Hstop, jumpToAnchor_stopped in H.
    simplify_eq. split; [done |]. intros el Hin. by apply elem_of_nil in Hin.
Qed.
End MachineInvariants.

(** ** The one-shot scroll, on the component *)

(** C5. [jumpToAnchor] returns [true] whatever the page and whatever its
    state, through each of its branches (no hash, stop flag set, element
    missing, element scrolled), so the scroll is one-shot: after the first
    dispatch the reducer state is [true]; it is still [true] after any further
    dispatches, and all the [scrollIntoView] calls of a series of dispatches
    (at most one) are those of the first.  Within a component instance no
    event brings the flag back to [false] or scrolls to the anchor again. *)
Theorem jumpToAnchor_one_shot :
  (∀ w stop, (jumpToAnchor w stop).1 = true)
  ∧ (∀ w stop,
       jumpToAnchor w stop = (true, [])
       ∨ ∃ ref,
           stop = false
           ∧ truthy (location_hash w) = true
           ∧ getElementById w (slice1 (location_hash w)) = Some ref
           ∧ jumpToAnchor w stop = (true, [ScrollIntoView ref]))
  ∧ (∀ w ws, (dispatches false (w :: ws)).1 = true)
  ∧ (∀ w ws, (dispatches false (w :: ws)).2 = (jumpToAnchor w false).2)
  ∧ (∀ w ws, (length (dispatches false (w :: ws)).2 ≤ 1)%nat)
  ∧ (∀ w s, stopScrolling (jumpToAnchorOnce w s).1 = true)
  ∧ (∀ w s, stopScrolling s = true → (jumpToAnchorOnce w s).2 = [])
  ∧ (∀ s e s' fx,
       stopScrolling s = true → isReload e = false →
       step s e = Some (s', fx) →
       stopScrolling s' = true ∧ ∀ el, ScrollIntoView el ∉ fx).
Proof.
  split_and!.
  - apply jumpToAnchor_returns_true.
  - apply jumpToAnchor_branches.
  - intros. by rewrite dispatches_first.
  - intros. by rewrite dispatches_first.
  - intros. rewrite dispatches_first. apply jumpToAnchor_at_most_once.
  - intros. apply jumpToAnchor_returns_true.
  - intros w s Hs. unfold jumpToAnchorOnce. cbn [snd].
    by rewrite Hs, jumpToAnchor_stopped.
  - intros s e s' fx Hs He Hstep. by eapply step_stopScrolling.
Qed.

(** ** The view style and browser storage *)

(** C6, as stated, fails when the stored value is the empty string: the key
    is present, its value is [""], and the initial view style is ["split"],
    not the stored value.  The state is one the component itself produces,
    by [handleViewStyleChange("")] followed by a reload. *)
Lemma initialViewStyle_empty_stored_value :
  getItem "viewStyle" ({["viewStyle" := ""]} : gmap string string) = Some ""
  ∧ initialViewStyle {["viewStyle" := ""]} = "split"
  ∧ initialViewStyle {["viewStyle" := ""]}
    ≠ default "split" (getItem "viewStyle"
                         ({["viewStyle" := ""]} : gmap string string))
  ∧ ∃ s fx,
      run (mount ∅ true {| isLoading := false; isDone := true; diff := [] |})
          [OnViewStyleChange "";
           Reload true {| isLoading := false; isDone := true; diff := [] |}]
        = Some (s, fx)
      ∧ localStorage s !! "viewStyle" = Some ""
      ∧ diffViewStyle s = "split".
Proof.
  split_and!; [done | done | done |].
  eexists _, _. split; [reflexivity |]. split; reflexivity.
Qed.

(** C6 (amended). ['viewStyle'] is the only storage key involved.  The
    initial view style is the value stored under it when that value is a
    non-empty string, and ['split'] when the key is absent or holds the empty
    string; it does not depend on any other key.  [handleViewStyleChange(s)]
    sets the view-style state and the stored ['viewStyle'] key to [s] and
    leaves every other key as it was; no other event changes the storage. *)
Theorem viewStyle_only_storage_key :
  (∀ storage sh f,
     diffViewStyle (mount storage sh f) =
       match storage !! "viewStyle" with
       | Some v => if decide (v = "") then "split" else v
       | None => "split"
       end)
  ∧ (∀ storage storage' sh f,
       storage !! "viewStyle" = storage' !! "viewStyle" →
       diffViewStyle (mount storage sh f) = diffViewStyle (mount storage' sh f))
  ∧ (∀ v s,
       diffViewStyle (handleViewStyleChange v s) = v
       ∧ localStorage (handleViewStyleChange v s) !! "viewStyle" = Some v
       ∧ ∀ key, key ≠ "viewStyle" →
           localStorage (handleViewStyleChange v s) !! key
           = localStorage s !! key)
  ∧ (∀ s e s' fx key,
       step s e = Some (s', fx) → key ≠ "viewStyle" →
       localStorage s' !! key = localStorage s !! key)
  ∧ (∀ s e s' fx,
       step s e = Some (s', fx) → isViewStyleChange e = false →
       localStorage s' = localStorage s).
Proof.
  assert (Hinit : ∀ storage sh f,
     diffViewStyle (mount storage sh f) =
       match storage !! "viewStyle" with
       | Some v => if decide (v = "") then "split" else v
       | None => "split"
       end).
  { intros storage sh f.
    destruct (mount_fields storage sh f) as (_ & _ & _ & -> & _).
    unfold initialViewStyle, getItem.
    destruct (storage !! "viewStyle") as [v |]; [| done].
    destruct (decide (v = "")) as [-> | Hne]; [done |].
    by apply orElse_nonempty. }
  split_and!.
  - exact Hinit.
  - intros storage storage' sh f Heq. by rewrite !Hinit, Heq.
  - intros v s. split_and!.
    + done.
    + simpl. by rewrite lookup_insert_eq.
    + intros key. apply handleViewStyleChange_other_keys.
  - intros s e s' fx key Hs Hne. by eapply step_other_keys.
  - intros s e s' fx Hs He. by eapply step_localStorage.
Qed.

(** ** The popover configuration *)

(** C7. The popover configuration starts at the 'done' value, and in every
    state the component reaches it is one of the two values, 'done' or 'top';
    a click on the completed-files counter replaces it by the other one. *)
Theorem donePopoverOpts_two_values
    (storage : gmap string string) (sh : bool) (f : FetchState)
    (es : list Event) (s : State) (fx : list Effect)
    (doneTitleRef : option Element) :
  run (mount storage sh f) es = Some (s, fx) →
  donePopoverOpts (mount storage sh f)
    = {| content := "Scroll to Done section"; cursorType := "s-resize" |}
  ∧ ((donePopoverOpts s
        = {| content := "Scroll to Done section"; cursorType := "s-resize" |}
      ∧ donePopoverOpts (handleCompletedFilesCounterClick doneTitleRef s).1
        = {| content := "Scroll to Top"; cursorType := "n-resize" |})
     ∨ (donePopoverOpts s
          = {| content := "Scroll to Top"; cursorType := "n-resize" |}
        ∧ donePopoverOpts (handleCompletedFilesCounterClick doneTitleRef s).1
          = {| content := "Scroll to Done section";
               cursorType := "s-resize" |})).
Proof.
  intros Hrun. split.
  - by destruct (mount_fields storage sh f) as (_ & _ & -> & _).
  - apply run_popoverCoupled in Hrun. unfold popoverCoupled in Hrun.
    rewrite click_popover, Hrun.
    destruct (isGoToDoneClicked s); [by right | by left].
Qed.

Lemma donePopoverOpts_two_values_witness :
  run (mount ∅ true {| isLoading := false; isDone := true; diff := [] |})
      [OnCounterClick (Some 7%nat); OnCompleteDiff "k"]
    = Some (onCompleteDiff "k"
              (handleCompletedFilesCounterClick (Some 7%nat)
                 (mount ∅ true
                    {| isLoading := false; isDone := true; diff := [] |})).1,
            [ScrollIntoViewSmooth 7%nat])
  ∧ donePopoverOpts
      (onCompleteDiff "k"
         (handleCompletedFilesCounterClick (Some 7%nat)
            (mount ∅ true
               {| isLoading := false; isDone := true; diff := [] |})).1)
    = donePopoverPossibleOpts_top
  ∧ donePopoverOpts
      (handleCompletedFilesCounterClick None
         (onCompleteDiff "k"
            (handleCompletedFilesCounterClick (Some 7%nat)
               (mount ∅ true
                  {| isLoading := false; isDone := true; diff := [] |})).1)).1
    = donePopoverPossibleOpts_done.
Proof.
  assert (Hrun :
    run (mount ∅ true {| isLoading := false; isDone := true; diff := [] |})
        [OnCounterClick (Some 7%nat); OnCompleteDiff "k"]
      = Some (onCompleteDiff "k"
                (handleCompletedFilesCounterClick (Some 7%nat)
                   (mount ∅ true
                      {| isLoading := false; isDone := true; diff := [] |})).1,
              [ScrollIntoViewSmooth 7%nat])) by reflexivity.
  split; [exact Hrun |].
  destruct (proj2 (donePopoverOpts_two_values _ _ _ _ _ _ None Hrun))
    as [[Hd _] | Ht].
  - discriminate Hd.
  - exact Ht.
Defined.

(** ** Completion progress and the fetch *)

(** C9, as stated, fails.  The effect depends on [isDone] and so runs only
    when [isDone] changes, not whenever it is false; and the component shows
    the diff view, toggle included, whenever it is not loading.  With a fetch
    state that is neither loading nor done a diff is completed while [isDone]
    is false, and a later render that reports the fetch in progress, with
    [isDone] still false, does not empty the list. *)
Lemma completedDiffs_kept_while_not_done :
  ∃ s fx,
    run (mount ∅ true {| isLoading := false; isDone := false; diff := [] |})
        [OnCompleteDiff "k";
         Rerender true {| isLoading := true; isDone := false; diff := [] |}]
      = Some (s, fx)
    ∧ isLoading (fetch s) = true
    ∧ isDone (fetch s) = false
    ∧ completedDiffs s = ["k"].
Proof. eexists _, _. split_and!; reflexivity. Qed.

(** C9 (amended). Completion progress does not outlive a reload, and the
    effect body empties the list when it runs with [isDone] false: at the
    first render, and at a render that brings [isDone] from true to false.
    For a fetch hook that reports loading for as long as it is not done: in
    every state the component reaches in which [isDone] is false the list is
    empty, a render that reports [isDone] false leaves it empty, and so does
    a reload. *)
Theorem completedDiffs_empty_while_fetching
    (storage : gmap string string) (sh : bool) (f : FetchState)
    (es : list Event) (s : State) (fx : list Effect) :
  fetchContract f →
  Forall respectsFetchContract es →
  run (mount storage sh f) es = Some (s, fx) →
  (isDone (fetch s) = false → completedDiffs s = [])
  ∧ (∀ sh' f',
       fetchContract f' → isDone f' = false →
       completedDiffs (rerender sh' f' s) = [])
  ∧ (∀ sh' f', completedDiffs (mount (localStorage s) sh' f') = [])
  ∧ (∀ s0, isDone (fetch s0) = false → completedDiffs (isDoneEffect s0) = []).
Proof.
  intros Hf Hes Hrun.
  assert (Hinv : emptyWhileFetching s).
  { eapply (run_invariant emptyWhileFetching respectsFetchContract);
      [| exact Hes | | exact Hrun].
    - intros ? ? ? ?. apply step_emptyWhileFetching.
    - by apply mount_emptyWhileFetching. }
  split_and!.
  - apply Hinv.
  - intros sh' f' Hf' Hnd.
    assert (Hstep : step s (Rerender sh' f') = Some (rerender sh' f' s, []))
      by done.
    apply (step_emptyWhileFetching s (Rerender sh' f') _ _ Hf' Hinv)
      in Hstep as [_ Hemp].
    apply Hemp.
    by destruct (rerender_fields sh' f' s) as (_ & _ & _ & _ & -> & _).
  - intros sh' f'. apply mount_fields.
  - apply isDoneEffect_not_done.
Qed.

Lemma completedDiffs_empty_while_fetching_witness :
  fetchContract {| isLoading := true; isDone := false; diff := [] |}
  ∧ Forall respectsFetchContract
      [Rerender true {| isLoading := false; isDone := true;
                        diff := [{| oldRevision := "1a"; newRevision := "2b" |}] |};
       OnCompleteDiff "1a2b";
       Rerender true {| isLoading := true; isDone := false; diff := [] |}]
  ∧ completedDiffs
      (onCompleteDiff "1a2b"
         (rerender true
            {| isLoading := false; isDone := true;
               diff := [{| oldRevision := "1a"; newRevision := "2b" |}] |}
            (mount ∅ true
               {| isLoading := true; isDone := false; diff := [] |})))
    = ["1a2b"]
  ∧ completedDiffs
      (rerender true {| isLoading := true; isDone := false; diff := [] |}
         (onCompleteDiff "1a2b"
            (rerender true
               {| isLoading := false; isDone := true;
                  diff := [{| oldRevision := "1a"; newRevision := "2b" |}] |}
               (mount ∅ true
                  {| isLoading := true; isDone := false; diff := [] |}))))
    = [].
Proof.
  assert (Hf : fetchContract
                 {| isLoading := true; isDone := false; diff := [] |})
    by (intros _; reflexivity).
  assert (Hes : Forall respectsFetchContract
      [Rerender true {| isLoading := false; isDone := true;
                        diff := [{| oldRevision := "1a"; newRevision := "2b" |}] |};
       OnCompleteDiff "1a2b";
       Rerender true {| isLoading := true; isDone := false; diff := [] |}]).
  { repeat constructor; intros H; try reflexivity; discriminate H. }
  split_and!; [exact Hf | exact Hes | reflexivity |].
  refine (proj1 (completedDiffs_empty_while_fetching ∅ true _ _ _ [] Hf Hes _) _);
    reflexivity.
Defined.

(** Without the contract on the fetch hook the list can be non-empty while
    [isDone] is false: a hook that reports neither loading nor done lets the
    diff view, and with it the toggle, on screen. *)
Lemma completedDiffs_needs_fetchContract :
  ∃ s fx,
    run (mount ∅ true {| isLoading := false; isDone := false; diff := [] |})
        [OnCompleteDiff "k"] = Some (s, fx)
    ∧ isDone (fetch s) = false
    ∧ completedDiffs s = ["k"].
Proof. eexists _, _. split_and!; reflexivity. Qed.

(** ** The upgrade-done message *)

(** C10. The message is rendered exactly when [diff] and [completedDiffs]
    have the same length.  This compares counts, not keys: a completed list
    of the right length shows the message even when it holds none of the keys
    of the diff.  An empty diff with nothing completed shows the message. *)
Theorem upgradeDoneMessage_iff_same_length :
  (∀ d c,
     renderUpgradeDoneMessage d c = Some upgradeDoneAlert
     ↔ length d = length c)
  ∧ (∀ d c, renderUpgradeDoneMessage d c = None ↔ length d ≠ length c)
  ∧ (∀ s v,
       render s = ViewDiff v →
       (upgradeDoneMessage v = Some upgradeDoneAlert
        ↔ length (diff (fetch s)) = length (completedDiffs s)))
  ∧ renderUpgradeDoneMessage [] [] = Some upgradeDoneAlert
  ∧ (∃ v,
       render (mount ∅ true {| isLoading := false; isDone := true; diff := [] |})
         = ViewDiff v
       ∧ upgradeDoneMessage v = Some upgradeDoneAlert)
  ∧ (∃ d c,
       (∀ x, x ∈ d → getDiffKey x ∉ c)
       ∧ d ≠ []
       ∧ renderUpgradeDoneMessage d c = Some upgradeDoneAlert).
Proof.
  assert (Hsome : ∀ d c,
     renderUpgradeDoneMessage d c = Some upgradeDoneAlert
     ↔ length d = length c).
  { intros d c. unfold renderUpgradeDoneMessage.
    destruct (Nat.eqb_spec (length d) (length c)); split; done. }
  split_and!.
  - exact Hsome.
  - intros d c. unfold renderUpgradeDoneMessage.
    destruct (Nat.eqb_spec (length d) (length c)); split; done.
  - intros s v. unfold render.
    destruct (negb (shouldShowDiff s)); [done |].
    destruct (isLoading (fetch s)); [done |].
    intros [= <-]. cbn [upgradeDoneMessage]. apply Hsome.
  - reflexivity.
  - eexists. split; reflexivity.
  - exists [{| oldRevision := "1a"; newRevision := "2b" |}], ["zz"].
    split_and!; [| done | reflexivity].
    intros x ->%list_elem_of_singleton Hin%list_elem_of_singleton.
    discriminate Hin.
Qed.

(** * Further properties *)

(** ** Order, length and composition of toggles *)

Section ToggleAlgebra.
Implicit Types (L snapshot prev ks : list string) (k a b : string)
               (es : list CompletionEvent).

Lemma filter_ne_absent L k : k ∉ L → filter (λ c, c ≠ k) L = L.
Proof.
  induction L as [| x L IH]; [done |].
  intros [Hx HL]%not_elem_of_cons.
  rewrite filter_cons_True by done. f_equal. by apply IH.
Qed.

Lemma filter_ne_idemp L k :
  filter (λ c, c ≠ k) (filter (λ c, c ≠ k) L) = filter (λ c, c ≠ k) L.
Proof.
  apply filter_ne_absent. rewrite list_elem_of_filter. tauto.
Qed.

Lemma filter_ne_comm L a b :
  filter (λ c, c ≠ b) (filter (λ c, c ≠ a) L)
  = filter (λ c, c ≠ a) (filter (λ c, c ≠ b) L).
Proof.
  rewrite !list_filter_filter. apply list_filter_iff. intros x. tauto.
Qed.

Lemma filter_ne_length L k :
  NoDup L → k ∈ L → S (length (filter (λ c, c ≠ k) L)) = length L.
Proof.
  induction L as [| x L IH]; intros Hnd Hin.
  - by apply elem_of_nil in Hin.
  - apply NoDup_cons in Hnd as [Hx Hnd].
    destruct (decide (x = k)) as [-> | Hne].
    + rewrite filter_cons_False by auto.
      by rewrite filter_ne_absent.
    + rewrite filter_cons_True by done. simpl. f_equal.
      apply elem_of_cons in Hin as [-> | Hin]; [done |]. by apply IH.
Qed.

Lemma toggle_elem_of L k j :
  j ∈ toggle L k ↔ (j = k ∧ k ∉ L) ∨ (j ≠ k ∧ j ∈ L).
Proof.
  destruct (decide (j = k)) as [-> | Hne].
  - destruct (decide (k ∈ L)) as [Hin | Hnot].
    + pose proof (toggle_present_absent L k Hin). tauto.
    + pose proof (toggle_absent_present L k Hnot). tauto.
  - unfold toggle. rewrite handleCompleteDiff_other by done. tauto.
Qed.

Lemma handleCompleteDiff_subseteq snapshot prev k (K : list string) :
  prev ⊆ K → k ∈ K → handleCompleteDiff snapshot k prev ⊆ K.
Proof.
  intros HL Hk j. destruct (decide (k ∈ snapshot)) as [Hin | Hnot].
  - rewrite handleCompleteDiff_present by done.
    rewrite list_elem_of_filter. intros [_ Hj]. by apply HL.
  - rewrite handleCompleteDiff_absent by done.
    rewrite elem_of_app, list_elem_of_singleton. intros [Hj | ->]; auto.
Qed.

Lemma runCompletion_subseteq d es :
  Forall (callFromDiff d) es →
  ∀ c, current c ⊆ diffKeys d → current (runCompletion c es) ⊆ diffKeys d.
Proof.
  induction 1 as [| e es He _ IH]; intros c Hc; [done |].
  unfold runCompletion. cbn [foldl]. apply IH.
  destruct e as [k | |]; simpl.
  - by apply handleCompleteDiff_subseteq.
  - unfold resetCompletedDiffs. apply list_subseteq_nil.
  - done.
Qed.

Lemma completed_submseteq d es :
  Forall (callFromDiff d) es →
  everyCall notBehindOn initialCompletion es = true →
  current (runCompletion initialCompletion es) ⊆+ diffKeys d.
Proof.
  intros Hd Hes. apply NoDup_submseteq.
  - apply runCompletion_NoDup; [done | apply NoDup_nil_2].
  - apply (runCompletion_subseteq d es Hd initialCompletion).
    apply list_subseteq_nil.
Qed.
End ToggleAlgebra.

(** X1. A toggle never reorders or duplicates the other keys: with the
    toggled key left out, the list is the same before and after, whatever
    render the handler was created in. *)
Theorem handleCompleteDiff_keeps_order_of_others
    (snapshot prev : list string) (k : string) :
  filter (λ c, c ≠ k) (handleCompleteDiff snapshot k prev)
  = filter (λ c, c ≠ k) prev.
Proof.
  destruct (decide (k ∈ snapshot)) as [Hin | Hnot].
  - rewrite handleCompleteDiff_present by done. apply filter_ne_idemp.
  - rewrite handleCompleteDiff_absent by done.
    rewrite filter_app, filter_cons_False, filter_nil, app_nil_r by auto.
    done.
Qed.

(** X2. On a duplicate-free list a toggle moves the number of completed
    diffs by exactly one: down when the key was completed, up when not. *)
Theorem toggle_length (L : list string) (k : string) :
  NoDup L →
  length (toggle L k) =
    if includes L k then Nat.pred (length L) else S (length L).
Proof.
  intros Hnd. destruct (decide (k ∈ L)) as [Hin | Hnot].
  - rewrite (proj2 (includes_true L k) Hin). unfold toggle.
    rewrite handleCompleteDiff_present by done.
    by rewrite <- (filter_ne_length L k Hnd Hin).
  - rewrite (proj2 (includes_false L k) Hnot). unfold toggle.
    rewrite handleCompleteDiff_absent by done.
    rewrite length_app. simpl. lia.
Qed.

Lemma toggle_length_witness :
  NoDup ["a"; "b"; "c"]
  ∧ length (toggle ["a"; "b"; "c"] "b") = 2%nat.
Proof.
  assert (Hnd : NoDup ["a"; "b"; "c"])
    by (apply (bool_decide_unpack _); vm_compute; exact I).
  split; [exact Hnd |].
  exact (toggle_length ["a"; "b"; "c"] "b" Hnd).
Defined.

(** X3. Toggles commute: toggling two keys in either order gives the same
    completed keys, each as often; only the position of keys appended by the
    toggles can differ. *)
Theorem toggle_comm (L : list string) (a b : string) :
  toggle (toggle L a) b ≡ₚ toggle (toggle L b) a.
Proof.
  destruct (decide (a = b)) as [-> | Hne]; [done |].
  assert (Hba : b ∈ toggle L a ↔ b ∈ L)
    by (unfold toggle; by rewrite handleCompleteDiff_other).
  assert (Hab : a ∈ toggle L b ↔ a ∈ L)
    by (unfold toggle; by rewrite handleCompleteDiff_other).
  destruct (decide (a ∈ L)) as [Ha | Ha], (decide (b ∈ L)) as [Hb | Hb].
  - unfold toggle at 1 3.
    rewrite !handleCompleteDiff_present by tauto.
    unfold toggle. rewrite !handleCompleteDiff_present by done.
    by rewrite filter_ne_comm.
  - unfold toggle at 1 3.
    rewrite (handleCompleteDiff_absent (toggle L a)) by tauto.
    rewrite (handleCompleteDiff_present (toggle L b)) by tauto.
    unfold toggle.
    rewrite (handleCompleteDiff_present L L a) by done.
    rewrite (handleCompleteDiff_absent L L b) by done.
    rewrite filter_app, filter_cons_True, filter_nil by auto. done.
  - unfold toggle at 1 3.
    rewrite (handleCompleteDiff_present (toggle L a)) by tauto.
    rewrite (handleCompleteDiff_absent (toggle L b)) by tauto.
    unfold toggle.
    rewrite (handleCompleteDiff_absent L L a) by done.
    rewrite (handleCompleteDiff_present L L b) by done.
    rewrite filter_app, filter_cons_True, filter_nil by auto. done.
  - unfold toggle at 1 3.
    rewrite !handleCompleteDiff_absent by tauto.
    unfold toggle. rewrite !handleCompleteDiff_absent by done.
    rewrite <- !app_assoc. apply Permutation_app_head.
    apply Permutation_app_comm.
Qed.

Section Parity.
Implicit Types (L ks acc : list string) (k : string)
               (c : Completion) (es : list CompletionEvent).

Lemma occurrences_snoc_eq k ks :
  occurrences k (ks ++ [k]) = S (occurrences k ks).
Proof.
  unfold occurrences.
  rewrite filter_app, length_app, filter_cons_True by done. simpl. lia.
Qed.

Lemma occurrences_snoc_ne k x ks :
  x ≠ k → occurrences k (ks ++ [x]) = occurrences k ks.
Proof.
  intros Hne. unfold occurrences.
  rewrite filter_app, length_app, filter_cons_False by done. simpl. lia.
Qed.

(** From a render that agrees with the state on the key, a call flips the
    membership of the key. *)
Lemma includes_handleCompleteDiff_same snapshot prev k :
  includes snapshot k = includes prev k →
  includes (handleCompleteDiff snapshot k prev) k = negb (includes prev k).
Proof.
  intros Heq. destruct (decide (k ∈ snapshot)) as [Hin | Hnot].
  - rewrite handleCompleteDiff_present by done.
    rewrite <- Heq, (proj2 (includes_true snapshot k) Hin). simpl.
    apply includes_false. rewrite list_elem_of_filter. tauto.
  - rewrite handleCompleteDiff_absent by done.
    rewrite <- Heq, (proj2 (includes_false snapshot k) Hnot). simpl.
    apply includes_true. rewrite elem_of_app, list_elem_of_singleton. auto.
Qed.

Lemma includes_handleCompleteDiff_other snapshot prev k x :
  k ≠ x →
  includes (handleCompleteDiff snapshot x prev) k = includes prev k.
Proof.
  intros Hne. unfold includes. apply bool_decide_ext.
  by apply handleCompleteDiff_other.
Qed.

Lemma includes_runCompletion k es : ∀ c acc,
  everyCall agreesOn c es = true →
  includes (current c) k = Nat.odd (occurrences k acc) →
  includes (current (runCompletion c es)) k
  = Nat.odd (occurrences k (keysSinceReset acc es)).
Proof.
  induction es as [| e es IH]; intros c acc Hes Hc; [done |].
  cbn [everyCall] in Hes. apply andb_true_iff in Hes as [He Hes].
  unfold runCompletion. cbn [foldl]. fold (runCompletion (stepCompletion c e) es).
  destruct e as [x | |]; cbn [keysSinceReset]; apply IH; try done.
  - simpl. destruct (decide (x = k)) as [-> | Hne].
    + rewrite includes_handleCompleteDiff_same by by apply agreesOn_true.
      rewrite occurrences_snoc_eq, Nat.odd_succ, <- Nat.negb_odd.
      by rewrite Hc.
    + rewrite includes_handleCompleteDiff_other by done.
      by rewrite occurrences_snoc_ne.
Qed.
End Parity.

(** X4. A diff is completed exactly when its key was toggled an odd number
    of times since the list was last emptied (since the start, or since the
    last [resetCompletedDiffs]), provided every call is made through a render
    that agrees with the state on the key of the call. *)
Theorem completed_iff_odd_toggles (es : list CompletionEvent) (k : string) :
  everyCall agreesOn initialCompletion es = true →
  includes (current (runCompletion initialCompletion es)) k
  = Nat.odd (occurrences k (keysSinceReset [] es)).
Proof. intros Hes. by apply includes_runCompletion. Qed.

Lemma completed_iff_odd_toggles_witness :
  everyCall agreesOn initialCompletion
    [CallHandleCompleteDiff "a"; CallHandleCompleteDiff "b"; Rendered;
     CallResetCompletedDiffs; Rendered;
     CallHandleCompleteDiff "a"; Rendered; CallHandleCompleteDiff "a";
     CallHandleCompleteDiff "b"; Rendered; CallHandleCompleteDiff "a"]
  = true
  ∧ includes
      (current
         (runCompletion initialCompletion
            [CallHandleCompleteDiff "a"; CallHandleCompleteDiff "b"; Rendered;
             CallResetCompletedDiffs; Rendered;
             CallHandleCompleteDiff "a"; Rendered; CallHandleCompleteDiff "a";
             CallHandleCompleteDiff "b"; Rendered; CallHandleCompleteDiff "a"]))
      "a"
    = Nat.odd 3.
Proof.
  split; [reflexivity |].
  apply (completed_iff_odd_toggles
           [CallHandleCompleteDiff "a"; CallHandleCompleteDiff "b"; Rendered;
            CallResetCompletedDiffs; Rendered;
            CallHandleCompleteDiff "a"; Rendered; CallHandleCompleteDiff "a";
            CallHandleCompleteDiff "b"; Rendered; CallHandleCompleteDiff "a"]
           "a").
  reflexivity.
Defined.

(** ** The counter and the done message, for keys taken from the diff *)

(** X5. As long as the keys toggled are keys of files of the diff and no
    call is made through a render that is behind the state on its key, every
    completed key is a key of the diff and the number of completed diffs
    never exceeds the number of files: the counter cannot show more done
    than there is. *)
Theorem completed_at_most_total
    (d : list DiffFile) (es : list CompletionEvent) :
  Forall (callFromDiff d) es →
  everyCall notBehindOn initialCompletion es = true →
  current (runCompletion initialCompletion es) ⊆ diffKeys d
  ∧ (length (current (runCompletion initialCompletion es)) ≤ length d)%nat.
Proof.
  intros Hd Hes. split.
  - apply (runCompletion_subseteq d es Hd initialCompletion).
    apply list_subseteq_nil.
  - rewrite <- (length_fmap getDiffKey d).
    by apply submseteq_length, completed_submseteq.
Qed.

Lemma completed_at_most_total_witness :
  Forall (callFromDiff [{| oldRevision := "1a"; newRevision := "2b" |};
                        {| oldRevision := "3c"; newRevision := "4d" |}])
    [CallHandleCompleteDiff "3c4d"; CallHandleCompleteDiff "1a2b"; Rendered;
     CallHandleCompleteDiff "3c4d"]
  ∧ everyCall notBehindOn initialCompletion
      [CallHandleCompleteDiff "3c4d"; CallHandleCompleteDiff "1a2b"; Rendered;
       CallHandleCompleteDiff "3c4d"]
    = true
  ∧ (length (current
               (runCompletion initialCompletion
                  [CallHandleCompleteDiff "3c4d"; CallHandleCompleteDiff "1a2b";
                   Rendered; CallHandleCompleteDiff "3c4d"]))
     ≤ length [{| oldRevision := "1a"; newRevision := "2b" |};
               {| oldRevision := "3c"; newRevision := "4d" |}])%nat.
Proof.
  assert (Hd :
    Forall (callFromDiff [{| oldRevision := "1a"; newRevision := "2b" |};
                          {| oldRevision := "3c"; newRevision := "4d" |}])
      [CallHandleCompleteDiff "3c4d"; CallHandleCompleteDiff "1a2b"; Rendered;
       CallHandleCompleteDiff "3c4d"]).
  { repeat constructor;
      (apply (bool_decide_unpack _); vm_compute; exact I). }
  split; [exact Hd |]. split; [reflexivity |].
  exact (proj2 (completed_at_most_total _ _ Hd eq_refl)).
Defined.

(** X6. When the files of the diff have pairwise different keys, the keys
    toggled are keys of the diff and no call is made through a render that
    is behind the state on its key, the done message is shown exactly when
    every file of the diff is completed: the comparison of lengths then is a
    comparison of sets. *)
Theorem upgradeDone_iff_all_completed
    (d : list DiffFile) (es : list CompletionEvent) :
  NoDup (diffKeys d) →
  Forall (callFromDiff d) es →
  everyCall notBehindOn initialCompletion es = true →
  renderUpgradeDoneMessage d (current (runCompletion initialCompletion es))
    = Some upgradeDoneAlert
  ↔ ∀ x, x ∈ d → getDiffKey x ∈ current (runCompletion initialCompletion es).
Proof.
  intros Hkeys Hd Hes.
  pose proof (completed_submseteq d es Hd Hes) as Hsub.
  assert (Hnd : NoDup (current (runCompletion initialCompletion es)))
    by (apply runCompletion_NoDup; [done | apply NoDup_nil_2]).
  revert Hsub Hnd. generalize (current (runCompletion initialCompletion es)).
  intros l Hsub Hnd.
  unfold renderUpgradeDoneMessage.
  rewrite <- (length_fmap getDiffKey d). fold (diffKeys d).
  destruct (Nat.eqb_spec (length (diffKeys d)) (length l)) as [Heq | Hneq].
  - split; [intros _ | done]. intros x Hx.
    assert (Hperm : l ≡ₚ diffKeys d)
      by (apply submseteq_length_Permutation; [done | lia]).
    rewrite Hperm. unfold diffKeys. by apply list_elem_of_fmap_2.
  - split; [done |]. intros Hall. exfalso. apply Hneq.
    assert (Hperm : diffKeys d ≡ₚ l).
    { apply NoDup_Permutation; [done | done |]. intros k. split.
      - unfold diffKeys. intros (x & -> & Hx)%list_elem_of_fmap. by apply Hall.
      - intros Hk. by eapply elem_of_submseteq. }
    by rewrite Hperm.
Qed.

Lemma upgradeDone_iff_all_completed_witness :
  NoDup (diffKeys [{| oldRevision := "1a"; newRevision := "2b" |};
                   {| oldRevision := "3c"; newRevision := "4d" |}])
  ∧ Forall (callFromDiff [{| oldRevision := "1a"; newRevision := "2b" |};
                          {| oldRevision := "3c"; newRevision := "4d" |}])
      [CallHandleCompleteDiff "3c4d"; CallHandleCompleteDiff "1a2b"]
  ∧ everyCall notBehindOn initialCompletion
      [CallHandleCompleteDiff "3c4d"; CallHandleCompleteDiff "1a2b"]
    = true
  ∧ (renderUpgradeDoneMessage
       [{| oldRevision := "1a"; newRevision := "2b" |};
        {| oldRevision := "3c"; newRevision := "4d" |}]
       (current (runCompletion initialCompletion
                   [CallHandleCompleteDiff "3c4d";
                    CallHandleCompleteDiff "1a2b"]))
     = Some upgradeDoneAlert
     ↔ ∀ x,
         x ∈ [{| oldRevision := "1a"; newRevision := "2b" |};
              {| oldRevision := "3c"; newRevision := "4d" |}] →
         getDiffKey x
         ∈ current (runCompletion initialCompletion
                      [CallHandleCompleteDiff "3c4d";
                       CallHandleCompleteDiff "1a2b"])).
Proof.
  assert (Hkeys :
    NoDup (diffKeys [{| oldRevision := "1a"; newRevision := "2b" |};
                     {| oldRevision := "3c"; newRevision := "4d" |}]))
    by (apply (bool_decide_unpack _); vm_compute; exact I).
  assert (Hd :
    Forall (callFromDiff [{| oldRevision := "1a"; newRevision := "2b" |};
                          {| oldRevision := "3c"; newRevision := "4d" |}])
      [CallHandleCompleteDiff "3c4d"; CallHandleCompleteDiff "1a2b"]).
  { repeat constructor;
      (apply (bool_decide_unpack _); vm_compute; exact I). }
  split; [exact Hkeys |]. split; [exact Hd |]. split; [reflexivity |].
  exact (upgradeDone_iff_all_completed _ _ Hkeys Hd eq_refl).
Defined.

(** X7. When two files of the diff share a key, the done message never
    appears, whatever is toggled among the keys of the diff through renders
    that are not behind the state on the key toggled: there are fewer keys
    to complete than files to count. *)
Theorem upgradeDone_never_with_shared_key
    (d : list DiffFile) (es : list CompletionEvent) :
  ¬ NoDup (diffKeys d) →
  Forall (callFromDiff d) es →
  everyCall notBehindOn initialCompletion es = true →
  renderUpgradeDoneMessage d (current (runCompletion initialCompletion es))
  = None.
Proof.
  intros Hdup Hd Hes.
  pose proof (completed_submseteq d es Hd Hes) as Hsub.
  assert (Hnd : NoDup (current (runCompletion initialCompletion es)))
    by (apply runCompletion_NoDup; [done | apply NoDup_nil_2]).
  revert Hsub Hnd. generalize (current (runCompletion initialCompletion es)).
  intros l Hsub Hnd.
  unfold renderUpgradeDoneMessage.
  rewrite <- (length_fmap getDiffKey d). fold (diffKeys d).
  destruct (Nat.eqb_spec (length (diffKeys d)) (length l))
    as [Heq | Hneq]; [| done].
  exfalso. apply Hdup.
  assert (Hperm : l ≡ₚ diffKeys d)
    by (apply submseteq_length_Permutation; [done | lia]).
  by rewrite <- Hperm.
Qed.

Lemma upgradeDone_never_with_shared_key_witness :
  ¬ NoDup (diffKeys [{| oldRevision := "a"; newRevision := "bc" |};
                     {| oldRevision := "ab"; newRevision := "c" |}])
  ∧ Forall (callFromDiff [{| oldRevision := "a"; newRevision := "bc" |};
                          {| oldRevision := "ab"; newRevision := "c" |}])
      [CallHandleCompleteDiff "abc"]
  ∧ everyCall notBehindOn initialCompletion [CallHandleCompleteDiff "abc"]
    = true
  ∧ renderUpgradeDoneMessage
      [{| oldRevision := "a"; newRevision := "bc" |};
       {| oldRevision := "ab"; newRevision := "c" |}]
      (current (runCompletion initialCompletion
                  [CallHandleCompleteDiff "abc"]))
    = None.
Proof.
  assert (Hdup :
    ¬ NoDup (diffKeys [{| oldRevision := "a"; newRevision := "bc" |};
                       {| oldRevision := "ab"; newRevision := "c" |}]))
    by (apply (bool_decide_unpack _); vm_compute; exact I).
  assert (Hd :
    Forall (callFromDiff [{| oldRevision := "a"; newRevision := "bc" |};
                          {| oldRevision := "ab"; newRevision := "c" |}])
      [CallHandleCompleteDiff "abc"]).
  { repeat constructor;
      (apply (bool_decide_unpack _); vm_compute; exact I). }
  split; [exact Hdup |]. split; [exact Hd |]. split; [reflexivity |].
  exact (upgradeDone_never_with_shared_key _ _ Hdup Hd eq_refl).
Defined.

(** ** The counter click *)

Section CounterClick.
Implicit Types (s : State) (r : option Element).

Lemma click_effects r s :
  (handleCompletedFilesCounterClick r s).2 =
    if isGoToDoneClicked s
    then [WindowScrollToTop]
    else match r with
         | Some el => [ScrollIntoViewSmooth el]
         | None => [UncaughtTypeError]
         end.
Proof.
  unfold handleCompletedFilesCounterClick.
  destruct (isGoToDoneClicked s); [done |]. by destruct r.
Qed.

Lemma click_click r1 r2 s :
  popoverCoupled s →
  (handleCompletedFilesCounterClick r2
     (handleCompletedFilesCounterClick r1 s).1).1 = s.
Proof.
  unfold popoverCoupled, handleCompletedFilesCounterClick.
  destruct s as [cd clicked opts vs stop sh f ls]. simpl.
  intros ->. by destruct clicked.
Qed.
End CounterClick.

(** X8. The popover announces what the next click on the counter does.  In
    every state the component reaches: when it reads 'Scroll to Done section'
    the click scrolls the Done title into view, or raises when the title is
    not mounted ([doneTitleRef.current] is [null]); when it reads 'Scroll to
    Top' the click scrolls the window to the top. *)
Theorem popover_announces_click
    (storage : gmap string string) (sh : bool) (f : FetchState)
    (es : list Event) (s : State) (fx : list Effect)
    (doneTitleRef : option Element) :
  run (mount storage sh f) es = Some (s, fx) →
  (content (donePopoverOpts s) = "Scroll to Done section"
   ∧ (handleCompletedFilesCounterClick doneTitleRef s).2
     = match doneTitleRef with
       | Some el => [ScrollIntoViewSmooth el]
       | None => [UncaughtTypeError]
       end)
  ∨ (content (donePopoverOpts s) = "Scroll to Top"
     ∧ (handleCompletedFilesCounterClick doneTitleRef s).2
       = [WindowScrollToTop]).
Proof.
  intros Hrun%run_popoverCoupled. unfold popoverCoupled in Hrun.
  rewrite click_effects, Hrun.
  destruct (isGoToDoneClicked s); [by right | by left].
Qed.

Lemma popover_announces_click_witness :
  run (mount ∅ true {| isLoading := false; isDone := true; diff := [] |})
      [OnCounterClick None]
    = Some ((handleCompletedFilesCounterClick None
               (mount ∅ true
                  {| isLoading := false; isDone := true; diff := [] |})).1,
            [UncaughtTypeError])
  ∧ content
      (donePopoverOpts
         (handleCompletedFilesCounterClick None
            (mount ∅ true
               {| isLoading := false; isDone := true; diff := [] |})).1)
    = "Scroll to Top"
  ∧ (handleCompletedFilesCounterClick (Some 3%nat)
       (handleCompletedFilesCounterClick None
          (mount ∅ true
             {| isLoading := false; isDone := true; diff := [] |})).1).2
    = [WindowScrollToTop].
Proof.
  assert (Hrun :
    run (mount ∅ true {| isLoading := false; isDone := true; diff := [] |})
        [OnCounterClick None]
      = Some ((handleCompletedFilesCounterClick None
                 (mount ∅ true
                    {| isLoading := false; isDone := true; diff := [] |})).1,
              [UncaughtTypeError])) by reflexivity.
  split; [exact Hrun |].
  destruct (popover_announces_click _ _ _ _ _ _ (Some 3%nat) Hrun)
    as [[Hd _] | Ht].
  - discriminate Hd.
  - exact Ht.
Defined.

(** X9. Two clicks on the counter bring the component back to the state it
    was in: the flag, the popover and everything else are as before, also
    when one of the clicks raised. *)
Theorem counter_click_twice
    (storage : gmap string string) (sh : bool) (f : FetchState)
    (es : list Event) (s : State) (fx : list Effect)
    (r1 r2 : option Element) :
  run (mount storage sh f) es = Some (s, fx) →
  (handleCompletedFilesCounterClick r2
     (handleCompletedFilesCounterClick r1 s).1).1 = s.
Proof. intros Hrun%run_popoverCoupled. by apply click_click. Qed.

Lemma counter_click_twice_witness :
  run (mount ∅ true {| isLoading := false; isDone := true; diff := [] |})
      [OnCompleteDiff "k"]
    = Some (onCompleteDiff "k"
              (mount ∅ true
                 {| isLoading := false; isDone := true; diff := [] |}), [])
  ∧ (handleCompletedFilesCounterClick (Some 3%nat)
       (handleCompletedFilesCounterClick None
          (onCompleteDiff "k"
             (mount ∅ true
                {| isLoading := false; isDone := true; diff := [] |}))).1).1
    = onCompleteDiff "k"
        (mount ∅ true {| isLoading := false; isDone := true; diff := [] |}).
Proof.
  assert (Hrun :
    run (mount ∅ true {| isLoading := false; isDone := true; diff := [] |})
        [OnCompleteDiff "k"]
      = Some (onCompleteDiff "k"
                (mount ∅ true
                   {| isLoading := false; isDone := true; diff := [] |}), []))
    by reflexivity.
  split; [exact Hrun |].
  exact (counter_click_twice _ _ _ _ _ _ None (Some 3%nat) Hrun).
Defined.

(** ** The view style across reloads *)

Section ViewStyle.
Implicit Types (s : State) (e : Event) (es : list Event) (v : string).

Lemma step_viewStylePersisted s e s' fx :
  choosesEmptyStyle e = false → viewStylePersisted s →
  step s e = Some (s', fx) → viewStylePersisted s'.
Proof.
  unfold viewStylePersisted. intros He Hp H.
  destruct e as [sh f | sh f | k | r | v | w]; cbn [step] in H;
    try (destruct (interactive s); [| discriminate H]).
  - injection H as <- <-.
    by destruct (rerender_fields sh f s) as (_ & _ & -> & _ & _ & _ & ->).
  - injection H as <- <-.
    by destruct (mount_fields (localStorage s) sh f)
      as (_ & _ & _ & -> & _ & _ & _ & ->).
  - by injection H as <- <-.
  - apply (inj Some) in H. unfold handleCompletedFilesCounterClick in H.
    destruct (isGoToDoneClicked s); by simplify_eq.
  - injection H as <- <-. simpl in *.
    unfold initialViewStyle, getItem. rewrite lookup_insert_eq.
    by destruct v.
  - apply (inj Some) in H. unfold jumpToAnchorOnce in H. by simplify_eq.
Qed.

Lemma mount_viewStylePersisted storage sh f :
  viewStylePersisted (mount storage sh f).
Proof.
  unfold viewStylePersisted.
  by destruct (mount_fields storage sh f)
    as (_ & _ & _ & -> & _ & _ & _ & ->).
Qed.
End ViewStyle.

(** X10. The chosen view style survives a reload.  As long as no empty
    string is chosen as style, the style on screen is the one a fresh
    instance would start with from the storage as it is: reloading the page
    never changes it. *)
Theorem viewStyle_survives_reload
    (storage : gmap string string) (sh : bool) (f : FetchState)
    (es : list Event) (s : State) (fx : list Effect) :
  Forall (λ e, choosesEmptyStyle e = false) es →
  run (mount storage sh f) es = Some (s, fx) →
  ∀ sh' f', diffViewStyle (mount (localStorage s) sh' f') = diffViewStyle s.
Proof.
  intros Hes Hrun sh' f'.
  assert (Hp : viewStylePersisted s).
  { eapply (run_invariant viewStylePersisted
              (λ e, choosesEmptyStyle e = false));
      [| exact Hes | | exact Hrun].
    - intros ? ? ? ?. apply step_viewStylePersisted.
    - apply mount_viewStylePersisted. }
  unfold viewStylePersisted in Hp. rewrite Hp.
  by destruct (mount_fields (localStorage s) sh' f') as (_ & _ & _ & -> & _).
Qed.

Lemma viewStyle_survives_reload_witness :
  Forall (λ e, choosesEmptyStyle e = false)
    [OnViewStyleChange "unified"; OnCompleteDiff "k"]
  ∧ run (mount ∅ true {| isLoading := false; isDone := true; diff := [] |})
        [OnViewStyleChange "unified"; OnCompleteDiff "k"]
    = Some (onCompleteDiff "k"
              (handleViewStyleChange "unified"
                 (mount ∅ true
                    {| isLoading := false; isDone := true; diff := [] |})), [])
  ∧ diffViewStyle
      (mount
         (localStorage
            (onCompleteDiff "k"
               (handleViewStyleChange "unified"
                  (mount ∅ true
                     {| isLoading := false; isDone := true; diff := [] |}))))
         false {| isLoading := true; isDone := false; diff := [] |})
    = "unified".
Proof.
  assert (Hes : Forall (λ e, choosesEmptyStyle e = false)
                  [OnViewStyleChange "unified"; OnCompleteDiff "k"])
    by (repeat constructor).
  assert (Hrun :
    run (mount ∅ true {| isLoading := false; isDone := true; diff := [] |})
        [OnViewStyleChange "unified"; OnCompleteDiff "k"]
    = Some (onCompleteDiff "k"
              (handleViewStyleChange "unified"
                 (mount ∅ true
                    {| isLoading := false; isDone := true; diff := [] |})), []))
    by reflexivity.
  split; [exact Hes |]. split; [exact Hrun |].
  exact (viewStyle_survives_reload _ _ _ _ _ _ Hes Hrun false
           {| isLoading := true; isDone := false; diff := [] |}).
Defined.

(** ** The anchor scroll along a run *)

Section AnchorRun.
Implicit Types (s : State) (e : Event) (es : list Event) (fx : list Effect).

Lemma anchorScrolls_app fx1 fx2 :
  anchorScrolls (fx1 ++ fx2) = (anchorScrolls fx1 + anchorScrolls fx2)%nat.
Proof. unfold anchorScrolls. by rewrite filter_app, length_app. Qed.

Lemma anchorScrolls_none fx :
  (∀ el, ScrollIntoView el ∉ fx) → anchorScrolls fx = 0%nat.
Proof.
  unfold anchorScrolls. induction fx as [| x fx IH]; intros Hno; [done |].
  rewrite filter_cons_False.
  - apply IH. intros el Hin. apply (Hno el). by right.
  - destruct x; try done. exfalso. apply (Hno e). by left.
Qed.

Lemma step_anchorScrolls s e s' fx :
  isReload e = false → step s e = Some (s', fx) →
  anchorScrolls fx = 0%nat
  ∨ ((anchorScrolls fx ≤ 1)%nat ∧ stopScrolling s' = true).
Proof.
  intros He H.
  destruct e as [sh f | sh f | k | r | v | w]; cbn [step] in H;
    try discriminate He;
    try (destruct (interactive s); [| discriminate H]).
  - injection H as <- <-. by left.
  - injection H as <- <-. by left.
  - apply (inj Some) in H. left.
    rewrite <- (f_equal snd H : (handleCompletedFilesCounterClick r s).2 = fx).
    rewrite click_effects. destruct (isGoToDoneClicked s); [done |].
    by destruct r.
  - injection H as <- <-. by left.
  - apply (inj Some) in H. unfold jumpToAnchorOnce in H.
    injection H as <- <-. right. split.
    + unfold anchorScrolls.
      etrans; [apply length_filter | apply jumpToAnchor_at_most_once].
    + apply jumpToAnchor_returns_true.
Qed.

Lemma run_stopped es : ∀ s s' fx,
  Forall (λ e, isReload e = false) es → stopScrolling s = true →
  run s es = Some (s', fx) →
  anchorScrolls fx = 0%nat ∧ stopScrolling s' = true.
Proof.
  induction es as [| e es IH]; intros s s' fx Hes Hstop Hrun.
  - simpl in Hrun. by simplify_eq.
  - apply run_cons_inv in Hrun as (s1 & fx1 & fx2 & Hs & Hr & ->).
    apply Forall_cons in Hes as [He Hes].
    destruct (step_stopScrolling s e s1 fx1 He Hstop Hs) as [Hstop1 Hno].
    destruct (IH s1 s' fx2 Hes Hstop1 Hr) as [H0 Hstop'].
    split; [| done].
    by rewrite anchorScrolls_app, (anchorScrolls_none fx1 Hno), H0.
Qed.
End AnchorRun.

(** X11. Between two reloads the page is scrolled to the anchor at most
    once: whatever the state at the start and however many times the
    animation completes, a stretch of events without reload holds at most one
    [scrollIntoView] of [jumpToAnchor]. *)
Theorem anchor_scroll_at_most_once
    (s s' : State) (es : list Event) (fx : list Effect) :
  Forall (λ e, isReload e = false) es →
  run s es = Some (s', fx) →
  (anchorScrolls fx ≤ 1)%nat.
Proof.
  revert s s' fx. induction es as [| e es IH]; intros s s' fx Hes Hrun.
  - simpl in Hrun. simplify_eq. unfold anchorScrolls. simpl. lia.
  - apply run_cons_inv in Hrun as (s1 & fx1 & fx2 & Hs & Hr & ->).
    apply Forall_cons in Hes as [He Hes].
    rewrite anchorScrolls_app.
    destruct (step_anchorScrolls s e s1 fx1 He Hs) as [-> | [Hle Hstop]].
    + simpl. by eapply IH.
    + destruct (run_stopped es s1 s' fx2 Hes Hstop Hr) as [-> _]. lia.
Qed.

Lemma anchor_scroll_at_most_once_witness :
  Forall (λ e, isReload e = false)
    [OnAnimationComplete
       {| location_hash := "#done";
          getElementById := λ id, if String.eqb id "done" then Some 5%nat else None |};
     OnAnimationComplete
       {| location_hash := "#done";
          getElementById := λ id, if String.eqb id "done" then Some 5%nat else None |}]
  ∧ run (mount ∅ true {| isLoading := false; isDone := true; diff := [] |})
        [OnAnimationComplete
           {| location_hash := "#done";
              getElementById := λ id, if String.eqb id "done" then Some 5%nat else None |};
         OnAnimationComplete
           {| location_hash := "#done";
              getElementById := λ id, if String.eqb id "done" then Some 5%nat else None |}]
    = Some (setStopScrolling true
              (setStopScrolling true
                 (mount ∅ true
                    {| isLoading := false; isDone := true; diff := [] |})),
            [ScrollIntoView 5%nat])
  ∧ (anchorScrolls [ScrollIntoView 5%nat] ≤ 1)%nat.
Proof.
  assert (Hes : Forall (λ e, isReload e = false)
    [OnAnimationComplete
       {| location_hash := "#done";
          getElementById := λ id, if String.eqb id "done" then Some 5%nat else None |};
     OnAnimationComplete
       {| location_hash := "#done";
          getElementById := λ id, if String.eqb id "done" then Some 5%nat else None |}])
    by (repeat constructor).
  assert (Hrun :
    run (mount ∅ true {| isLoading := false; isDone := true; diff := [] |})
        [OnAnimationComplete
           {| location_hash := "#done";
              getElementById := λ id, if String.eqb id "done" then Some 5%nat else None |};
         OnAnimationComplete
           {| location_hash := "#done";
              getElementById := λ id, if String.eqb id "done" then Some 5%nat else None |}]
    = Some (setStopScrolling true
              (setStopScrolling true
                 (mount ∅ true
                    {| isLoading := false; isDone := true; diff := [] |})),
            [ScrollIntoView 5%nat])) by reflexivity.
  split; [exact Hes |]. split; [exact Hrun |].
  exact (anchor_scroll_at_most_once _ _ _ _ Hes Hrun).
Defined.

(** ** What keeps and what empties the completed list *)

(** X12. A render empties the completed list only when [isDone] goes from
    true to false.  Every other render keeps it, also one that finds
    [isDone] already false; and neither the counter click, nor a change of
    view style, nor the end of the animation touches it. *)
Theorem completedDiffs_kept_or_emptied :
  (∀ s sh f,
     isDone (fetch s) = true → isDone f = false →
     completedDiffs (rerender sh f s) = [])
  ∧ (∀ s sh f,
       isDone f = true ∨ isDone (fetch s) = false →
       completedDiffs (rerender sh f s) = completedDiffs s)
  ∧ (∀ s e s' fx,
       step s e = Some (s', fx) →
       match e with
       | OnCounterClick _ | OnViewStyleChange _ | OnAnimationComplete _ => True
       | _ => False
       end →
       completedDiffs s' = completedDiffs s).
Proof.
  split_and!.
  - intros s sh f Hold Hnew. unfold rerender. rewrite Hold, Hnew. simpl.
    by apply isDoneEffect_not_done.
  - intros s sh f Hcase. unfold rerender.
    destruct (Bool.eqb (isDone f) (isDone (fetch s))) eqn:Heq; [done |].
    destruct (isDone f) eqn:Hf.
    + unfold isDoneEffect. simpl. by rewrite Hf.
    + destruct Hcase as [? | Hold]; [done |]. rewrite Hold in Heq. done.
  - intros s e s' fx H He.
    destruct e as [sh f | sh f | k | r | v | w]; cbn [step] in H;
      try done;
      (destruct (interactive s); [| discriminate H]).
    + apply (inj Some) in H. unfold handleCompletedFilesCounterClick in H.
      destruct (isGoToDoneClicked s); by simplify_eq.
    + by injection H as <- <-.
    + apply (inj Some) in H. unfold jumpToAnchorOnce in H. by simplify_eq.
Qed.

(** ** The changelog link *)

Section Changelog.
Implicit Types (s sub pre post : string).

Lemma append_cons c s post : String c s +:+ post = String c (s +:+ post).
Proof. reflexivity. Qed.

Lemma append_nil post : "" +:+ post = post.
Proof. reflexivity. Qed.

Lemma prefix_true_iff sub : ∀ s,
  String.prefix sub s = true ↔ ∃ post, s = sub +:+ post.
Proof.
  induction sub as [| a sub IH]; intros s.
  - split; [intros _; by exists s | intros _; by destruct s].
  - destruct s as [| b s].
    + split; [intros H; discriminate H |].
      intros [post H]. rewrite append_cons in H. discriminate H.
    + cbn [String.prefix].
      destruct (Ascii.ascii_dec a b) as [-> | Hne].
      * rewrite IH. split; intros [post H]; exists post.
        -- rewrite append_cons. by f_equal.
        -- rewrite append_cons in H. by injection H.
      * split; [intros H; discriminate H |].
        intros [post H]. rewrite append_cons in H. congruence.
Qed.

Lemma stringIncludes_true_iff sub : ∀ s,
  stringIncludes s sub = true ↔ ∃ pre post, s = pre +:+ sub +:+ post.
Proof.
  induction s as [| c s IH]; cbn [stringIncludes].
  - rewrite orb_false_r, prefix_true_iff. split.
    + intros [post H]. by exists "", post.
    + intros (pre & post & H). destruct pre as [| c' pre].
      * rewrite append_nil in H. by exists post.
      * rewrite append_cons in H. discriminate H.
  - rewrite orb_true_iff, prefix_true_iff, IH. split.
    + intros [[post H] | (pre & post & H)].
      * by exists "", post.
      * exists (String c pre), post. rewrite append_cons. by f_equal.
    + intros (pre & post & H). destruct pre as [| c' pre].
      * left. rewrite append_nil in H. by exists post.
      * right. exists pre, post. rewrite append_cons in H. by injection H.
Qed.
End Changelog.

(** X13. The changelog link is left out exactly for the versions that
    contain ['-rc'] somewhere, at the end or in the middle.  Every other
    version gets a link to the address [getChangelogURL] gives for the
    package and that version, opened in a new tab. *)
Theorem changelog_iff_not_release_candidate
    (getChangelogURL : string → string → string)
    (packageName toVersion : string) :
  (changelog getChangelogURL packageName toVersion = None
   ↔ ∃ pre post, toVersion = pre +:+ "-rc" +:+ post)
  ∧ (∀ l,
       changelog getChangelogURL packageName toVersion = Some l →
       href l = getChangelogURL packageName toVersion
       ∧ target l = "_blank"
       ∧ ¬ ∃ pre post, toVersion = pre +:+ "-rc" +:+ post).
Proof.
  unfold changelog.
  pose proof (stringIncludes_true_iff "-rc" toVersion) as Hspec.
  destruct (stringIncludes toVersion "-rc"); simpl.
  - split; [split; [intros _; by apply Hspec | done] | done].
  - split.
    + split; [done |]. intros H%Hspec. discriminate H.
    + intros l [= <-]. simpl. split_and!; [done | done |].
      intros H%Hspec. discriminate H.
Qed.

Example changelog_release_candidate :
  changelog (λ p v, "https://example.org/" +:+ p +:+ "/" +:+ v)
    "react-native" "0.74.0-rc.3" = None.
Proof. reflexivity. Qed.

Example changelog_release :
  href <$> changelog (λ p v, "https://example.org/" +:+ p +:+ "/" +:+ v)
             "react-native" "0.74.0"
  = Some "https://example.org/react-native/0.74.0".
Proof. reflexivity. Qed.

(** ** Choosing the view style more than once *)

(** X14. Only the last view style chosen counts: choosing one style and
    then another leaves the component and the storage exactly as choosing the
    second alone. *)
Theorem handleViewStyleChange_last_wins (v1 v2 : string) (s : State) :
  handleViewStyleChange v2 (handleViewStyleChange v1 s)
  = handleViewStyleChange v2 s.
Proof.
  unfold handleViewStyleChange, setItem, setViewStyle. simpl.
  by rewrite insert_insert_eq.
Qed.
